(** * The question bridge of gemini-cli: Ledger, Bridge and front ends

    A shallow embedding of
      - packages/cli/src/services/questionManager.ts   (the Question Ledger)
      - packages/cli/src/services/tuiIntegration.ts    (the Responder Bridge)
      - the HTTP server service                        (Front End A)
      - packages/cli/src/services/mcpServerService.ts  (Front End B)
    and the properties of the specification that concern them. *)

From Stdlib Require Import ZArith NArith String Ascii.
From stdpp Require Import base option list gmap pretty.

Local Open Scope nat_scope.

(** ** JavaScript strings

    A JavaScript string is a sequence of UTF-16 code units. *)

Abbreviation jsstring := (list N).

(** The code units of an ASCII literal of the source. *)
Definition js (s : string) : jsstring :=
  N_of_ascii <$> list_ascii_of_string s.

(** ECMAScript's WhiteSpace and LineTerminator code points, the ones
    [String.prototype.trim] strips: TAB, LF, VT, FF, CR, SP, NBSP, U+1680,
    U+2000..U+200A, LS, PS, U+202F, U+205F, U+3000 and the BOM U+FEFF. *)
Definition isWhiteSpace (c : N) : bool :=
  (c =? 9)%N || (c =? 10)%N || (c =? 11)%N || (c =? 12)%N || (c =? 13)%N
  || (c =? 32)%N || (c =? 160)%N || (c =? 5760)%N
  || ((8192 <=? c)%N && (c <=? 8202)%N)
  || (c =? 8232)%N || (c =? 8233)%N || (c =? 8239)%N || (c =? 8287)%N
  || (c =? 12288)%N || (c =? 65279)%N.

Fixpoint trimStart (s : jsstring) : jsstring :=
  match s with
  | [] => []
  | c :: rest => if isWhiteSpace c then trimStart rest else s
  end.

Definition trimEnd (s : jsstring) : jsstring :=
  reverse (trimStart (reverse s)).

(** [text.trim()] *)
Definition trim (s : jsstring) : jsstring := trimEnd (trimStart s).

(** ** The JavaScript [Map], keyed by strings

    A [Map] keeps its entries in insertion order; [set] on a key that is
    present replaces the value where it stands. *)

Module Map.
Section Map.
Context {V : Type}.

Fixpoint get (k : jsstring) (m : list (jsstring * V)) : option V :=
  match m with
  | [] => None
  | (k', v) :: rest => if decide (k = k') then Some v else get k rest
  end.

Fixpoint set (k : jsstring) (v : V) (m : list (jsstring * V))
  : list (jsstring * V) :=
  match m with
  | [] => [(k, v)]
  | (k', v') :: rest =>
      if decide (k = k') then (k, v) :: rest else (k', v') :: set k v rest
  end.

Fixpoint delete (k : jsstring) (m : list (jsstring * V))
  : list (jsstring * V) :=
  match m with
  | [] => []
  | (k', v') :: rest =>
      if decide (k = k') then rest else (k', v') :: delete k rest
  end.

Definition values (m : list (jsstring * V)) : list V := m.*2.

End Map.
End Map.

(** ** questionManager.ts *)

Inductive Status := st_thinking | st_error | st_finished.

Global Instance Status_eq_dec : EqDecision Status.
Proof. solve_decision. Defined.

(** [interface QuestionState]; [createdAt] is a [Date], here its time value
    in milliseconds. *)
Record QuestionState := {
  id : jsstring;
  status : Status;
  request : jsstring;
  response : option jsstring;
  error : option jsstring;
  createdAt : N;
}.

Global Instance QuestionState_eq_dec : EqDecision QuestionState.
Proof. solve_decision. Defined.

(** [question.status = s], [question.response = r], [question.error = e]:
    assignments to one property of a question object. *)
Definition set_status (s : Status) (q : QuestionState) : QuestionState :=
  {| id := id q; status := s; request := request q; response := response q;
     error := error q; createdAt := createdAt q |}.

Definition set_response (r : jsstring) (q : QuestionState) : QuestionState :=
  {| id := id q; status := status q; request := request q; response := Some r;
     error := error q; createdAt := createdAt q |}.

Definition set_error (e : jsstring) (q : QuestionState) : QuestionState :=
  {| id := id q; status := status q; request := request q;
     response := response q; error := Some e; createdAt := createdAt q |}.

(** Question objects live in the JavaScript heap and are handled by
    reference: the [Map] holds references, and so do the callers of
    [getAnswer] and [getAllQuestions].  [objects] is the store of the
    question objects created so far, a reference is an index into it. *)
Abbreviation ref := nat.

Record QuestionManager := {
  objects : list QuestionState;
  questions : list (jsstring * ref);
}.

(** [new QuestionManager()] *)
Definition new_QuestionManager : QuestionManager :=
  {| objects := []; questions := [] |}.

(** What a call reads from its environment: the clock ([Date.now()],
    [new Date()]) and [Math.random().toString(36)]. *)
Record Env := {
  Date_now : N;
  Math_random_36 : jsstring;
  new_Date : N;
}.

(** [str.substr(start, length)] for a start inside the string or beyond. *)
Definition substr (start len : nat) (s : jsstring) : jsstring :=
  take len (drop start s).

(** [`q_${Date.now()}_${Math.random().toString(36).substr(2, 9)}`] *)
Definition generateQuestionId (env : Env) : jsstring :=
  js "q_" ++ js (pretty (Date_now env)) ++ js "_"
    ++ substr 2 9 (Math_random_36 env).

Definition submitQuestion (env : Env) (text : jsstring) (qm : QuestionManager)
  : jsstring * QuestionManager :=
  let id := generateQuestionId env in
  let question :=
    {| id := id; status := st_thinking; request := text;
       response := None; error := None; createdAt := new_Date env |} in
  let r := length (objects qm) in
  (id, {| objects := objects qm ++ [question];
          questions := Map.set id r (questions qm) |}).

(** [this.questions.get(questionId) || null]: the reference held by the
    [Map], or [null]. *)
Definition getAnswer (questionId : jsstring) (qm : QuestionManager)
  : option ref :=
  Map.get questionId (questions qm).

Definition notifyResponseComplete (questionId response : jsstring)
    (qm : QuestionManager) : QuestionManager :=
  match Map.get questionId (questions qm) with
  | Some question =>
      {| objects :=
           alter (λ q, set_response response (set_status st_finished q))
                 question (objects qm);
         questions := questions qm |}
  | None => qm
  end.

Definition notifyError (questionId error : jsstring) (qm : QuestionManager)
  : QuestionManager :=
  match Map.get questionId (questions qm) with
  | Some question =>
      {| objects :=
           alter (λ q, set_error error (set_status st_error q))
                 question (objects qm);
         questions := questions qm |}
  | None => qm
  end.

(** [Array.from(this.questions.values())]: a new array of the references
    the [Map] holds, in insertion order. *)
Definition getAllQuestions (qm : QuestionManager) : list ref :=
  Map.values (questions qm).

(** Reading an object through a reference, now. *)
Definition deref (qm : QuestionManager) (r : ref) : option QuestionState :=
  objects qm !! r.

(** The question [getAnswer] finds, as its properties read now. *)
Definition readAnswer (questionId : jsstring) (qm : QuestionManager)
  : option QuestionState :=
  getAnswer questionId qm ≫= deref qm.

(** The operations the rest of the program can perform on the Ledger: the
    [questions] field is private, so the public methods are the only way
    in. *)
Inductive Op :=
| op_submit (env : Env) (text : jsstring)
| op_resolve (questionId response : jsstring)
| op_fail (questionId error : jsstring).

Definition step (op : Op) (qm : QuestionManager) : QuestionManager :=
  match op with
  | op_submit env text => (submitQuestion env text qm).2
  | op_resolve questionId response =>
      notifyResponseComplete questionId response qm
  | op_fail questionId error => notifyError questionId error qm
  end.

Definition run (ops : list Op) (qm : QuestionManager) : QuestionManager :=
  foldl (λ qm op, step op qm) qm ops.

(** A submit handler, [(text, questionId) => void], as installed with
    [setSubmitHandler]: what it does to the Ledger before it returns, and
    the exception it ends with, if any. *)
Record Dispatch := {
  effects : list Op;
  raised : option jsstring;
}.

Abbreviation SubmitHandler := (jsstring → jsstring → Dispatch).

(** ** tuiIntegration.ts

    The Bridge's collaborators (the text buffer, the prompt's [onSubmit],
    the callbacks) act on a world [W] outside the Bridge.  A callback
    returns, and does not call back into the Bridge; the calls into the
    prompt, which the source guards with [try], may throw. *)

Module Tui.
Section Tui.
Context {W : Type}.

(** How a call into the prompt ends: it returns, or it throws an error
    that prints as [err]. *)
Inductive Outcome :=
| Returns (w : W)
| Throws (err : jsstring) (w : W).

Record TuiIntegrationCallbacks := {
  onResponseComplete : option (jsstring → jsstring → W → W);
  onError : option (jsstring → jsstring → W → W);
}.

(** [{ buffer: TextBuffer; onSubmit: (value: string) => void }] *)
Record InputPrompt := {
  buffer_setText : jsstring → W → Outcome;
  onSubmit : jsstring → W → Outcome;
}.

Record TuiIntegration := {
  callbacks : TuiIntegrationCallbacks;
  pendingQuestions : list (jsstring * InputPrompt);
  currentQuestionId : option jsstring;
}.

Definition new_TuiIntegration : TuiIntegration :=
  {| callbacks := {| onResponseComplete := None; onError := None |};
     pendingQuestions := []; currentQuestionId := None |}.

Definition setCallbacks (cb : TuiIntegrationCallbacks) (t : TuiIntegration)
  : TuiIntegration :=
  {| callbacks := cb; pendingQuestions := pendingQuestions t;
     currentQuestionId := currentQuestionId t |}.

Definition getCurrentQuestionId (t : TuiIntegration) : option jsstring :=
  currentQuestionId t.

Definition registerInputPrompt (p : InputPrompt) (t : TuiIntegration)
  : TuiIntegration :=
  {| callbacks := callbacks t;
     pendingQuestions := Map.set (js "current") p (pendingQuestions t);
     currentQuestionId := currentQuestionId t |}.

(** [if (cb) { cb(questionId, arg); }] *)
Definition call (cb : option (jsstring → jsstring → W → W))
    (questionId arg : jsstring) (w : W) : W :=
  match cb with
  | Some f => f questionId arg w
  | None => w
  end.

Definition submitQuestion (text questionId : jsstring)
    (t : TuiIntegration) (w : W) : TuiIntegration * W :=
  match Map.get (js "current") (pendingQuestions t) with
  | None =>
      (t, call (onError (callbacks t)) questionId (js "TUI not available") w)
  | Some current =>
      match buffer_setText current text w with
      | Throws err w1 =>
          (t, call (onError (callbacks t)) questionId
                   (js "TUI submission failed: " ++ err) w1)
      | Returns w1 =>
          let t1 :=
            {| callbacks := callbacks t;
               pendingQuestions :=
                 Map.set questionId current (pendingQuestions t);
               currentQuestionId := Some questionId |} in
          match onSubmit current text w1 with
          | Returns w2 => (t1, w2)
          | Throws err w2 =>
              (t1, call (onError (callbacks t)) questionId
                        (js "TUI submission failed: " ++ err) w2)
          end
      end
  end.

(** The clean-up both notifications end with. *)
Definition cleanUp (questionId : jsstring) (t : TuiIntegration)
  : TuiIntegration :=
  {| callbacks := callbacks t;
     pendingQuestions := Map.delete questionId (pendingQuestions t);
     currentQuestionId :=
       if decide (currentQuestionId t = Some questionId) then None
       else currentQuestionId t |}.

Definition notifyResponseComplete (questionId response : jsstring)
    (t : TuiIntegration) (w : W) : TuiIntegration * W :=
  let w1 := call (onResponseComplete (callbacks t)) questionId response w in
  (cleanUp questionId t, w1).

Definition notifyError (questionId error : jsstring)
    (t : TuiIntegration) (w : W) : TuiIntegration * W :=
  let w1 := call (onError (callbacks t)) questionId error w in
  (cleanUp questionId t, w1).

(** The calls the rest of the program makes on the Bridge, and the
    Bridge and the world after a sequence of them. *)
Inductive Call :=
| call_setCallbacks (cb : TuiIntegrationCallbacks)
| call_registerInputPrompt (p : InputPrompt)
| call_submitQuestion (text questionId : jsstring)
| call_notifyResponseComplete (questionId response : jsstring)
| call_notifyError (questionId error : jsstring).

Definition perform (c : Call) (s : TuiIntegration * W) : TuiIntegration * W :=
  match c with
  | call_setCallbacks cb => (setCallbacks cb s.1, s.2)
  | call_registerInputPrompt p => (registerInputPrompt p s.1, s.2)
  | call_submitQuestion text questionId =>
      submitQuestion text questionId s.1 s.2
  | call_notifyResponseComplete questionId response =>
      notifyResponseComplete questionId response s.1 s.2
  | call_notifyError questionId error => notifyError questionId error s.1 s.2
  end.

Definition perform_all (cs : list Call) (s : TuiIntegration * W)
  : TuiIntegration * W :=
  foldl (λ s c, perform c s) s cs.

End Tui.
Global Arguments Call : clear implicits.
Global Arguments Outcome : clear implicits.
Global Arguments TuiIntegrationCallbacks : clear implicits.
Global Arguments InputPrompt : clear implicits.
Global Arguments TuiIntegration : clear implicits.
End Tui.

(** ** The HTTP server service (Front End A) *)

Module Http.

(** The value of the [text] field of a request body, as far as the route
    looks at it: its type and whether it is truthy. *)
Inductive JsValue :=
| JUndefined
| JNull
| JBoolean (b : bool)
| JNumber (nonzero : bool)
| JString (s : jsstring)
| JObject.

Definition truthy (v : JsValue) : bool :=
  match v with
  | JUndefined | JNull => false
  | JBoolean b => b
  | JNumber nonzero => nonzero
  | JString s => bool_decide (s ≠ [])
  | JObject => true
  end.

Inductive Reply :=
| reply_error (code : nat) (error : string)
| reply_questionId (questionId : jsstring)
| reply_answer (q : QuestionState)
| reply_questions (qs : list QuestionState).

(** The status line of a reply: [res.json] alone answers 200. *)
Definition statusCode (r : Reply) : nat :=
  match r with
  | reply_error code _ => code
  | _ => 200
  end.

Definition invalid_text : Reply :=
  reply_error 400
    "Invalid request: text field is required and must be non-empty string".

(** [POST /question], from [const { text } = req.body] on. *)
Definition post_question (onSubmitQuestion : option SubmitHandler)
    (env : Env) (text : JsValue) (qm : QuestionManager)
  : Reply * QuestionManager :=
  if negb (truthy text) then (invalid_text, qm)
  else
    match text with
    | JString s =>
        if decide (length (trim s) = 0) then (invalid_text, qm)
        else
          let '(questionId, qm1) := submitQuestion env (trim s) qm in
          match onSubmitQuestion with
          | Some handler =>
              let d := handler (trim s) questionId in
              let qm2 := run (effects d) qm1 in
              match raised d with
              | Some _ => (reply_error 500 "Internal server error", qm2)
              | None => (reply_questionId questionId, qm2)
              end
          | None => (reply_questionId questionId, qm1)
          end
    | _ => (invalid_text, qm)
    end.

(** [GET /answer/:questionId]: [res.json] serialises the properties as
    they are when the route runs. *)
Definition get_answer (questionId : jsstring) (qm : QuestionManager) : Reply :=
  if decide (questionId = []) then reply_error 400 "Invalid questionId format"
  else
    match readAnswer questionId qm with
    | None => reply_error 404 "Question not found"
    | Some q => reply_answer q
    end.

(** [GET /debug/questions] *)
Definition debug_questions (qm : QuestionManager) : Reply :=
  reply_questions (omap (deref qm) (getAllQuestions qm)).

End Http.

(** ** mcpServerService.ts (Front End B) *)

Module Mcp.

(** *** The [ask] tool *)

(** A template literal, piece by piece. *)
Inductive Piece :=
| Lit (s : string)
| Str (s : jsstring)
| StatusStr (s : Status)
| IsoString (t : N)
| NumStr (n : nat).

Global Instance Piece_eq_dec : EqDecision Piece.
Proof. solve_decision. Defined.

(** How a tool call ends: with a result holding one text item, or with a
    thrown [Error] of the given message. *)
Inductive ToolResult :=
| Content (text : list Piece)
| Thrown (message : jsstring).

Global Instance ToolResult_eq_dec : EqDecision ToolResult.
Proof. solve_decision. Defined.

Definition maxRetries : nat := 240.

(** [value || fallback] on an optional string: the empty string is falsy
    as [undefined] is. *)
Definition or_else (value : option jsstring) (fallback : jsstring) : jsstring :=
  match value with
  | Some (c :: s) => c :: s
  | _ => fallback
  end.

(** The line feed of a template literal. *)
Definition NL : Piece := Lit (String (ascii_of_nat 10) EmptyString).

Definition success_text (stream : bool) (questionId : jsstring)
    (question : QuestionState) (retries : nat) : list Piece :=
  let streamIndicator := if stream then "[STREAMED]" else "[NON-STREAMED]" in
  let responseText :=
    or_else (response question) (js "No response received") in
  [ Lit "🎯 Gemini TUI Response "; Lit streamIndicator; Lit ":"; NL; NL;
    Str responseText; NL; NL;
    Lit "📊 Metadata:"; NL;
    Lit "- Question ID: "; Str questionId; NL;
    Lit "- Status: "; StatusStr (status question); NL;
    Lit "- Created: "; IsoString (createdAt question); NL;
    Lit "- Polling time: "; NumStr (retries * 2); Lit " seconds"; NL;
    Lit "- Integration: Direct TUI Integration via MCP" ]%string.

(** One turn of the loop's body up to its [await]: the exit it takes on
    what [getAnswer] found, if it takes one. *)
Definition poll_exit (stream : bool) (questionId : jsstring) (retries : nat)
    (question : option QuestionState) : option ToolResult :=
  match question with
  | Some q =>
      if bool_decide (status q = st_finished ∨ status q = st_error) then
        if bool_decide (status q = st_error) then
          Some (Thrown (or_else (error q) (js "TUI processing failed")))
        else Some (Content (success_text stream questionId q retries))
      else None
  | None => None
  end.

(** [while (retries < maxRetries) { ... }], by recursion on
    [maxRetries - retries].  During the [retries]-th sleep of
    [pollInterval] milliseconds the rest of the program performs
    [sched retries] on the Ledger.  Returns the outcome, [retries] at the
    exit and the Ledger then. *)
Fixpoint poll (stream : bool) (questionId : jsstring) (sched : nat → list Op)
    (left retries : nat) (qm : QuestionManager)
  : ToolResult * nat * QuestionManager :=
  match left with
  | 0 => (Thrown (js "TUI response timeout after 8 minutes"), retries, qm)
  | S left' =>
      let question := readAnswer questionId qm in
      match poll_exit stream questionId retries question with
      | Some r => (r, retries, qm)
      | None =>
          poll stream questionId sched left' (S retries)
               (run (sched retries) qm)
      end
  end.

(** [case "ask"] *)
Definition ask (onSubmitQuestion : option SubmitHandler) (env : Env)
    (text : jsstring) (stream : bool) (sched : nat → list Op)
    (qm : QuestionManager) : ToolResult * nat * QuestionManager :=
  let '(questionId, qm1) := submitQuestion env text qm in
  match onSubmitQuestion with
  | Some handler =>
      let d := handler text questionId in
      let qm2 := run (effects d) qm1 in
      match raised d with
      | Some err => (Thrown err, 0, qm2)
      | None => poll stream questionId sched (maxRetries - 0) 0 qm2
      end
  | None =>
      (Thrown (js "MCP server not properly integrated with TUI - no submit handler set"),
       0, qm1)
  end.

(** [{ text, stream = true }] *)
Record AskArgs := {
  text : jsstring;
  stream : option bool;
}.

(** The [CallToolRequestSchema] handler. *)
Definition callTool (onSubmitQuestion : option SubmitHandler) (env : Env)
    (name : jsstring) (args : option AskArgs) (sched : nat → list Op)
    (qm : QuestionManager) : ToolResult * nat * QuestionManager :=
  match args with
  | None => (Thrown (js "No arguments provided for tool " ++ name), 0, qm)
  | Some a =>
      if decide (name = js "ask") then
        ask onSubmitQuestion env (text a) (default true (stream a)) sched qm
      else (Thrown (js "Tool " ++ name ++ js " not found"), 0, qm)
  end.

(** *** The Session Table and the [/mcp] routes *)

(** A [StreamableHTTPServerTransport], by the session id it carries. *)
Record Transport := {
  sessionId : option jsstring;
}.

(** [this.transports] is a plain object, [{}]: reading a property finds
    the table's own entry, or else what [Object.prototype] has under that
    name. *)
Definition Object_prototype : list jsstring :=
  js <$> [ "constructor"; "__proto__"; "hasOwnProperty"; "isPrototypeOf";
           "propertyIsEnumerable"; "toLocaleString"; "toString"; "valueOf";
           "__defineGetter__"; "__defineSetter__"; "__lookupGetter__";
           "__lookupSetter__" ]%string.

Inductive Property :=
| own (t : Transport)
| inherited (name : jsstring)
| undefined.

(** [this.transports[sessionId]] *)
Definition transports_get (transports : gmap jsstring Transport)
    (sid : jsstring) : Property :=
  match transports !! sid with
  | Some t => own t
  | None =>
      if bool_decide (sid ∈ Object_prototype) then inherited sid
      else undefined
  end.

Definition Property_truthy (p : Property) : bool :=
  match p with
  | own _ | inherited _ => true
  | undefined => false
  end.

(** [sessionId] as a condition: a header that is absent or empty is
    falsy. *)
Definition header_truthy (h : option jsstring) : bool :=
  match h with
  | Some (_ :: _) => true
  | _ => false
  end.

(** The handlers that the service installs on a transport, as the
    transport calls them while it handles a request:
    [onsessioninitialized(sessionId)], with the id that the transport took
    from [sessionIdGenerator] and carries from then on, and [onclose].
    ([onsessionclosed] only logs.) *)
Inductive Callback :=
| sessioninitialized (sid : jsstring)
| closed.

(** What a transport does with one request is the SDK's business, not the
    service's: the handlers it calls, in order, and how [handleRequest]
    ends, [Some code] when the transport wrote the reply, [None] when it
    threw with nothing written. *)
Record Handling := {
  calls : list Callback;
  wrote : option nat;
}.

Inductive Reply :=
| handled (t : Transport) (code : nat)
| jsonrpc_error (code : nat) (rpc_code : Z) (message : string)
| plain (code : nat) (body : string)
| unhandled_rejection.

(** The HTTP status of a reply; a rejected handler writes none. *)
Definition statusCode (r : Reply) : option nat :=
  match r with
  | handled _ code => Some code
  | jsonrpc_error code _ _ => Some code
  | plain code _ => Some code
  | unhandled_rejection => None
  end.

Definition client_error (r : Reply) : Prop :=
  ∃ code, statusCode r = Some code ∧ 400 ≤ code < 500.

(** [transport.onclose] *)
Definition onclose (t : Transport) (transports : gmap jsstring Transport)
  : gmap jsstring Transport :=
  match sessionId t with
  | Some sid =>
      if header_truthy (Some sid) && Property_truthy (transports_get transports sid)
      then delete sid transports
      else transports
  | None => transports
  end.

(** One call of a handler by the transport [s.1]:
    [this.transports[sessionId] = transport], or [onclose]. *)
Definition callback (c : Callback) (s : Transport * gmap jsstring Transport)
  : Transport * gmap jsstring Transport :=
  match c with
  | sessioninitialized sid =>
      let transport := {| sessionId := Some sid |} in
      (transport, <[sid := transport]> s.2)
  | closed => (s.1, onclose s.1 s.2)
  end.

(** The table after [transport.handleRequest(...)]. *)
Definition handleRequest (does : Handling) (transport : Transport)
    (transports : gmap jsstring Transport) : gmap jsstring Transport :=
  (foldl (λ s c, callback c s) (transport, transports) (calls does)).2.

(** [POST /mcp].  [isInitialize] is [isInitializeRequest(req.body)]; a new
    transport has no session id until it takes one. *)
Definition post_mcp (does : Handling) (h : option jsstring)
    (isInitialize : bool) (transports : gmap jsstring Transport)
  : Reply * gmap jsstring Transport :=
  let sid := default [] h in
  if header_truthy h && Property_truthy (transports_get transports sid) then
    match transports_get transports sid with
    | own transport =>
        (match wrote does with
         | Some code => handled transport code
         | None => jsonrpc_error 500 (-32603) "Internal server error"
         end, handleRequest does transport transports)
    | _ => (jsonrpc_error 500 (-32603) "Internal server error", transports)
    end
  else if negb (header_truthy h) && isInitialize then
    let transport := {| sessionId := None |} in
    (match wrote does with
     | Some code => handled transport code
     | None => jsonrpc_error 500 (-32603) "Internal server error"
     end, handleRequest does transport transports)
  else
    (jsonrpc_error 400 (-32000) "Bad Request: No valid session ID provided",
     transports).

(** [GET /mcp]: no [try] around the call of [handleRequest]. *)
Definition get_mcp (does : Handling) (h : option jsstring)
    (transports : gmap jsstring Transport)
  : Reply * gmap jsstring Transport :=
  let sid := default [] h in
  if negb (header_truthy h) || negb (Property_truthy (transports_get transports sid))
  then (plain 400 "Invalid or missing session ID", transports)
  else
    match transports_get transports sid with
    | own transport =>
        (match wrote does with
         | Some code => handled transport code
         | None => unhandled_rejection
         end, handleRequest does transport transports)
    | _ => (unhandled_rejection, transports)
    end.

(** [DELETE /mcp] *)
Definition delete_mcp (does : Handling) (h : option jsstring)
    (transports : gmap jsstring Transport)
  : Reply * gmap jsstring Transport :=
  let sid := default [] h in
  if negb (header_truthy h) || negb (Property_truthy (transports_get transports sid))
  then (plain 400 "Invalid or missing session ID", transports)
  else
    match transports_get transports sid with
    | own transport =>
        (match wrote does with
         | Some code => handled transport code
         | None => plain 500 "Error processing session termination"
         end, handleRequest does transport transports)
    | _ => (plain 500 "Error processing session termination", transports)
    end.

(** [stop()]: one turn of the loop over the sessions.  A transport that
    is closed runs its [onclose]; then the entry is deleted. *)
Definition stop_visit (transports : gmap jsstring Transport) (sid : jsstring)
  : gmap jsstring Transport :=
  match transports !! sid with
  | Some transport => delete sid (onclose transport transports)
  | None => transports
  end.

(** The loop [for (const sessionId in this.transports)]; [order] is the
    order in which it enumerates the keys, and a key that was deleted
    before its turn is passed over. *)
Definition stop (order : list jsstring)
    (transports : gmap jsstring Transport) : gmap jsstring Transport :=
  foldl stop_visit transports order.

(** The requests to [/mcp], each with what the transport it reaches does
    with it, and the table after a sequence of them. *)
Inductive Request :=
| POST (does : Handling) (h : option jsstring) (isInitialize : bool)
| GET (does : Handling) (h : option jsstring)
| DELETE (does : Handling) (h : option jsstring).

Definition serve (r : Request) (transports : gmap jsstring Transport)
  : Reply * gmap jsstring Transport :=
  match r with
  | POST does h isInitialize => post_mcp does h isInitialize transports
  | GET does h => get_mcp does h transports
  | DELETE does h => delete_mcp does h transports
  end.

Definition serve_all (rs : list Request)
    (transports : gmap jsstring Transport) : gmap jsstring Transport :=
  foldl (λ transports r, (serve r transports).2) transports rs.

(** A transport that accepts an initialize request, and tells the service
    the id it took; one that closes on a termination request; and one that
    refuses a request with a status of its own, calling no handler. *)
Definition accepts (sid : jsstring) : Handling :=
  {| calls := [sessioninitialized sid]; wrote := Some 200 |}.

Definition closes : Handling := {| calls := [closed]; wrote := Some 200 |}.

Definition refuses (code : nat) : Handling :=
  {| calls := []; wrote := Some code |}.

End Mcp.

(** ** Concrete inputs used by the examples below *)

Definition env1 : Env :=
  {| Date_now := 1718000000000%N; Math_random_36 := js "0.k3x9q2m7pz1a";
     new_Date := 1718000000000%N |}.

Definition env2 : Env :=
  {| Date_now := 1718000000500%N; Math_random_36 := js "0.b81wz0c4r";
     new_Date := 1718000000501%N |}.

(** The Ledger after [submit "What is 2+2?"], and the id it gave. *)
Definition q1 : jsstring := (submitQuestion env1 (js "What is 2+2?") new_QuestionManager).1.
Definition ledger1 : QuestionManager :=
  (submitQuestion env1 (js "What is 2+2?") new_QuestionManager).2.

(** ** Invariants of the Ledger *)

(** The keys of the [Map] are distinct, every reference it holds is to an
    object that exists, and no object is held under two ids. *)
Definition well_formed (qm : QuestionManager) : Prop :=
  NoDup (questions qm).*1
  ∧ (∀ k r, Map.get k (questions qm) = Some r → r < length (objects qm))
  ∧ (∀ k k' r, Map.get k (questions qm) = Some r →
               Map.get k' (questions qm) = Some r → k = k').

(** What the properties of a question object have in common with its
    [status]. *)
Definition consistent (q : QuestionState) : Prop :=
  (status q = st_thinking → response q = None ∧ error q = None)
  ∧ (status q = st_finished → is_Some (response q))
  ∧ (status q = st_error → is_Some (error q)).

(** ** The Ledger as the polling loop finds it *)

(** The Ledger after [k] sleeps of the loop that started on [qm] with
    [retries = start]. *)
Fixpoint ledger_from (sched : nat → list Op) (start k : nat)
    (qm : QuestionManager) : QuestionManager :=
  match k with
  | 0 => qm
  | S k' => ledger_from sched (S start) k' (run (sched start) qm)
  end.

(** The Ledger at the [k]-th call of [getAnswer] (counting from 0). *)
Definition ledger_at (sched : nat → list Op) (k : nat) (qm : QuestionManager)
  : QuestionManager :=
  ledger_from sched 0 k qm.

(** A schedule on which nothing happens to the Ledger. *)
Definition idle : nat → list Op := λ _, [].

(** A schedule on which the Responder answers during the [k]-th sleep. *)
Definition answers_at (k : nat) (questionId response : jsstring)
  : nat → list Op :=
  λ n, if decide (n = k) then [op_resolve questionId response] else [].


Definition forwards : SubmitHandler :=
  λ text questionId, {| effects := []; raised := None |}.

(** The Bridge's callbacks when they are the Ledger's two notifications. *)
Definition ledger_callbacks : Tui.TuiIntegrationCallbacks QuestionManager :=
  {| Tui.onResponseComplete := Some notifyResponseComplete;
     Tui.onError := Some notifyError |}.

(** A handler that throws, having done nothing to the Ledger. *)
Definition throws : SubmitHandler :=
  λ text questionId, {| effects := []; raised := Some (js "Error: no TUI") |}.

(** Every session of the table is stored under the id its transport
    carries. *)
Definition keyed (transports : gmap jsstring Mcp.Transport) : Prop :=
  ∀ k t, transports !! k = Some t → Mcp.sessionId t = Some k.

(** Two session ids, as [randomUUID()] gives them, and the table with a
    session under each. *)
Definition uuid1 : jsstring := js "3f0c9a52-7d1e-4b8a-9c55-0f2e6a1b7d10".
Definition uuid2 : jsstring := js "a81b44e7-02c3-4f6d-b9e0-5c7d2f3a9e41".

Definition two_sessions : gmap jsstring Mcp.Transport :=
  Mcp.serve_all [ Mcp.POST (Mcp.accepts uuid1) None true;
                  Mcp.POST (Mcp.accepts uuid2) None true ] ∅.

(** A prompt whose world is the list of the texts submitted through it,
    last first. *)
Definition logging_prompt : Tui.InputPrompt (list jsstring) :=
  {| Tui.buffer_setText := λ text w, Tui.Returns w;
     Tui.onSubmit := λ text w, Tui.Returns (text :: w) |}.

(** What holds of the Bridge after every sequence of calls: the keys of
    [pendingQuestions] are distinct, and the marker names a question that
    [pendingQuestions] holds. *)
Definition Bridge_ok {W : Type} (t : Tui.TuiIntegration W) : Prop :=
  NoDup (Tui.pendingQuestions t).*1
  ∧ ∀ q, Tui.currentQuestionId t = Some q →
         is_Some (Map.get q (Tui.pendingQuestions t)).

(** The id an operation is about: the one its submit generates, or the
    one its notification names. *)
Definition target (op : Op) : jsstring :=
  match op with
  | op_submit env _ => generateQuestionId env
  | op_resolve questionId _ => questionId
  | op_fail questionId _ => questionId
  end.

(** The question stored under an id carries that id. *)
Definition ids_match (qm : QuestionManager) : Prop :=
  ∀ k q, readAnswer k qm = Some q → id q = k.

(** The submit handler that is the Bridge when no prompt is registered on
    it and its callbacks are the Ledger's notifications: [submitQuestion]
    of the Bridge reports "TUI not available" through [onError], which
    fails the question, and returns. *)
Definition unregistered_bridge : SubmitHandler :=
  λ text questionId,
    {| effects := [op_fail questionId (js "TUI not available")];
       raised := None |}.

(** ** The ids a run has issued *)

(** The ids that the submits of [ops] generated, in order. *)
Definition issued (ops : list Op) : list jsstring :=
  omap (λ op, match op with
              | op_submit env _ => Some (generateQuestionId env)
              | _ => None
              end) ops.

(** The code units of the decimal digits. *)
Definition is_digit (c : N) : bool := (48 <=? c)%N && (c <=? 57)%N.

(** * Facts *)

(** ** The [Map] *)

Module MapFacts.
Section MapFacts.
Context {V : Type}.
Implicit Types (k : jsstring) (v : V) (m : list (jsstring * V)).

Lemma get_set_eq k v m : Map.get k (Map.set k v m) = Some v.
Proof.
  induction m as [|[k' v'] m IH]; simpl.
  - by rewrite decide_True.
  - destruct (decide (k = k')) as [->|Hne]; simpl.
    + by rewrite decide_True.
    + by rewrite decide_False.
Qed.

Lemma get_set_ne k k' v m : k ≠ k' → Map.get k' (Map.set k v m) = Map.get k' m.
Proof.
  intros Hne. induction m as [|[k0 v0] m IH]; simpl.
  - by rewrite decide_False.
  - destruct (decide (k = k0)) as [->|Hk]; simpl.
    + by rewrite !decide_False.
    + destruct (decide (k' = k0)); [done | apply IH].
Qed.

Lemma get_set k k' v m :
  Map.get k' (Map.set k v m)
  = if decide (k = k') then Some v else Map.get k' m.
Proof.
  case_decide as H; [subst; apply get_set_eq | by apply get_set_ne].
Qed.

Lemma get_None_keys k m : Map.get k m = None ↔ k ∉ m.*1.
Proof.
  induction m as [|[k' v'] m IH]; simpl.
  - split; [intros _; apply not_elem_of_nil | done].
  - rewrite not_elem_of_cons. destruct (decide (k = k')) as [->|Hne].
    + split; [done | intros [? _]; done].
    + rewrite IH. tauto.
Qed.

Lemma get_Some_values k v m : Map.get k m = Some v → v ∈ Map.values m.
Proof.
  unfold Map.values. induction m as [|[k' v'] m IH]; simpl; [done|].
  destruct (decide (k = k')); intros H.
  - injection H as ->. apply list_elem_of_here.
  - apply list_elem_of_further; auto.
Qed.

(** With distinct keys, which [set] keeps, every value is found under
    its key. *)
Lemma values_get v m :
  NoDup m.*1 → v ∈ Map.values m → ∃ k, Map.get k m = Some v.
Proof.
  unfold Map.values. induction m as [|[k' v'] m IH]; simpl.
  - intros _ H. by apply elem_of_nil in H.
  - intros Hnd Hin. apply NoDup_cons in Hnd as [Hnotin Hnd].
    apply elem_of_cons in Hin as [->|Hin].
    + exists k'. by rewrite decide_True.
    + destruct (IH Hnd Hin) as [k Hk]. exists k.
      rewrite decide_False; [done|].
      intros ->. apply get_None_keys in Hnotin. congruence.
Qed.

Lemma keys_set k v m :
  (Map.set k v m).*1 = if decide (k ∈ m.*1) then m.*1 else m.*1 ++ [k].
Proof.
  induction m as [|[k' v'] m IH].
  - case_decide as Hin; [by apply elem_of_nil in Hin | done].
  - cbn [Map.set]. destruct (decide (k = k')) as [->|Hne].
    + rewrite decide_True; [done | apply list_elem_of_here].
    + rewrite fmap_cons, IH. cbn [fst fmap list_fmap].
      destruct (decide (k ∈ m.*1)) as [Hin|Hnin].
      * rewrite decide_True; [done | by apply list_elem_of_further].
      * rewrite decide_False; [done|].
        rewrite not_elem_of_cons. done.
Qed.

Lemma NoDup_keys_set k v m : NoDup m.*1 → NoDup (Map.set k v m).*1.
Proof.
  intros Hnd. rewrite keys_set. destruct (decide (k ∈ m.*1)); [done|].
  apply NoDup_app. split_and!; [done | | apply NoDup_singleton].
  intros x Hx Hx'. apply list_elem_of_singleton in Hx'. by subst.
Qed.

End MapFacts.
End MapFacts.

(** ** The Ledger *)

Section Ledger.
Implicit Types (qm : QuestionManager) (q : QuestionState) (op : Op).

Lemma well_formed_new : well_formed new_QuestionManager.
Proof.
  split_and!; [apply NoDup_nil_2 | intros k r H; discriminate H |].
  intros k k' r H. discriminate H.
Qed.

Lemma well_formed_submit env text qm :
  well_formed qm → well_formed (submitQuestion env text qm).2.
Proof.
  intros (Hnd & Hin & Hinj). split_and!; simpl.
  - by apply MapFacts.NoDup_keys_set.
  - intros k r. rewrite length_app. simpl.
    destruct (decide (generateQuestionId env = k)) as [<-|Hne].
    + rewrite MapFacts.get_set_eq. intros [= <-]. lia.
    + rewrite MapFacts.get_set_ne by done. intros H%Hin. lia.
  - intros k k' r. rewrite !MapFacts.get_set.
    destruct (decide (generateQuestionId env = k)) as [<-|Hk];
      destruct (decide (generateQuestionId env = k')) as [<-|Hk']; [done|..].
    + intros [= <-] Hget%Hin. lia.
    + intros Hget%Hin [= <-]. lia.
    + apply Hinj.
Qed.

Lemma well_formed_notifyResponseComplete questionId r qm :
  well_formed qm → well_formed (notifyResponseComplete questionId r qm).
Proof.
  intros (Hnd & Hin & Hinj). unfold notifyResponseComplete.
  destruct (Map.get questionId (questions qm)); [|done].
  split_and!; simpl; [done| |done].
  intros k r'. rewrite length_alter. apply Hin.
Qed.

Lemma well_formed_notifyError questionId e qm :
  well_formed qm → well_formed (notifyError questionId e qm).
Proof.
  intros (Hnd & Hin & Hinj). unfold notifyError.
  destruct (Map.get questionId (questions qm)); [|done].
  split_and!; simpl; [done| |done].
  intros k r'. rewrite length_alter. apply Hin.
Qed.

Lemma well_formed_step op qm : well_formed qm → well_formed (step op qm).
Proof.
  intros Hwf. destruct op as [env text|questionId r|questionId e].
  - by apply (well_formed_submit env text).
  - by apply well_formed_notifyResponseComplete.
  - by apply well_formed_notifyError.
Qed.

Lemma well_formed_run_from ops qm : well_formed qm → well_formed (run ops qm).
Proof.
  revert qm. induction ops as [|op ops IH]; intros qm Hwf; [done|].
  apply IH. by apply well_formed_step.
Qed.

Lemma well_formed_run ops : well_formed (run ops new_QuestionManager).
Proof. apply well_formed_run_from, well_formed_new. Qed.

(** A notification is an assignment to the object the [Map] holds: it is
    seen through every reference to that object. *)
Lemma deref_notifyResponseComplete qm questionId question r :
  getAnswer questionId qm = Some question →
  deref (notifyResponseComplete questionId r qm) question
  = (λ q, set_response r (set_status st_finished q)) <$> deref qm question.
Proof.
  unfold getAnswer, deref, notifyResponseComplete. intros ->. simpl.
  apply list_lookup_alter_eq.
Qed.

Lemma deref_notifyError qm questionId question e :
  getAnswer questionId qm = Some question →
  deref (notifyError questionId e qm) question
  = (λ q, set_error e (set_status st_error q)) <$> deref qm question.
Proof.
  unfold getAnswer, deref, notifyError. intros ->. simpl.
  apply list_lookup_alter_eq.
Qed.

Lemma getAnswer_notifyResponseComplete qm questionId k r :
  getAnswer k (notifyResponseComplete questionId r qm) = getAnswer k qm.
Proof.
  unfold getAnswer, notifyResponseComplete.
  by destruct (Map.get questionId (questions qm)).
Qed.

Lemma getAnswer_notifyError qm questionId k e :
  getAnswer k (notifyError questionId e qm) = getAnswer k qm.
Proof.
  unfold getAnswer, notifyError.
  by destruct (Map.get questionId (questions qm)).
Qed.

Lemma readAnswer_notifyResponseComplete qm questionId r :
  readAnswer questionId (notifyResponseComplete questionId r qm)
  = (λ q, set_response r (set_status st_finished q))
      <$> readAnswer questionId qm.
Proof.
  unfold readAnswer. rewrite getAnswer_notifyResponseComplete.
  destruct (getAnswer questionId qm) as [question|] eqn:Hget; [|done].
  simpl. by apply deref_notifyResponseComplete.
Qed.

Lemma readAnswer_notifyError qm questionId e :
  readAnswer questionId (notifyError questionId e qm)
  = (λ q, set_error e (set_status st_error q)) <$> readAnswer questionId qm.
Proof.
  unfold readAnswer. rewrite getAnswer_notifyError.
  destruct (getAnswer questionId qm) as [question|] eqn:Hget; [|done].
  simpl. by apply deref_notifyError.
Qed.

(** A notification for one id leaves the questions of the other ids as
    they are. *)
Lemma readAnswer_notify_other qm questionId k r e :
  well_formed qm → k ≠ questionId →
  readAnswer k (notifyResponseComplete questionId r qm) = readAnswer k qm
  ∧ readAnswer k (notifyError questionId e qm) = readAnswer k qm.
Proof.
  intros (_ & _ & Hinj) Hne. unfold readAnswer.
  rewrite getAnswer_notifyResponseComplete, getAnswer_notifyError.
  unfold getAnswer, notifyResponseComplete, notifyError, deref.
  destruct (Map.get k (questions qm)) as [rk|] eqn:Hk; [|done].
  destruct (Map.get questionId (questions qm)) as [rq|] eqn:Hq; [|done].
  assert (rq ≠ rk) as Hr.
  { intros ->. apply Hne. by apply (Hinj k questionId rk). }
  simpl. by rewrite !list_lookup_alter_ne.
Qed.

(** [submitQuestion] stores a new object and leaves the others alone. *)
Lemma readAnswer_submitQuestion env text qm :
  readAnswer (submitQuestion env text qm).1 (submitQuestion env text qm).2
  = Some {| id := generateQuestionId env; status := st_thinking;
            request := text; response := None; error := None;
            createdAt := new_Date env |}.
Proof.
  unfold readAnswer, getAnswer, deref. simpl.
  rewrite MapFacts.get_set_eq. simpl. apply list_lookup_middle. done.
Qed.

Lemma deref_submitQuestion env text qm r q :
  deref qm r = Some q → deref (submitQuestion env text qm).2 r = Some q.
Proof.
  unfold deref. simpl. intros H. rewrite lookup_app_l; [done|].
  by apply lookup_lt_Some in H.
Qed.

(** No operation removes an object, changes its [id], [request] or
    [createdAt], or takes it back to [thinking]. *)
Lemma step_object op qm r q :
  deref qm r = Some q →
  ∃ q', deref (step op qm) r = Some q'
        ∧ id q' = id q ∧ request q' = request q ∧ createdAt q' = createdAt q
        ∧ (status q ≠ st_thinking → status q' ≠ st_thinking).
Proof.
  intros Hq. destruct op as [env text|questionId resp|questionId e]; simpl.
  - exists q. split; [by apply deref_submitQuestion | done].
  - unfold notifyResponseComplete.
    destruct (Map.get questionId (questions qm)) as [question|]; [|by exists q].
    unfold deref in *. simpl.
    destruct (decide (question = r)) as [->|Hne].
    + rewrite list_lookup_alter_eq, Hq. simpl. eexists. split; [done|].
      simpl. done.
    + rewrite list_lookup_alter_ne by done. by exists q.
  - unfold notifyError.
    destruct (Map.get questionId (questions qm)) as [question|]; [|by exists q].
    unfold deref in *. simpl.
    destruct (decide (question = r)) as [->|Hne].
    + rewrite list_lookup_alter_eq, Hq. simpl. eexists. split; [done|].
      simpl. done.
    + rewrite list_lookup_alter_ne by done. by exists q.
Qed.

Lemma consistent_step op qm :
  (∀ r q, deref qm r = Some q → consistent q) →
  ∀ r q, deref (step op qm) r = Some q → consistent q.
Proof.
  intros Hall r q. destruct op as [env text|questionId resp|questionId e]; simpl.
  - unfold deref. simpl. intros [H|[_ H]]%lookup_app_Some.
    + by apply (Hall r).
    + destruct (r - length (objects qm)) as [|n]; [|done].
      injection H as <-. repeat split; simpl; done.
  - unfold notifyResponseComplete.
    destruct (Map.get questionId (questions qm)) as [question|]; [|apply Hall].
    unfold deref. simpl. rewrite list_lookup_alter.
    case_decide as Heq; [subst question|apply Hall].
    destruct (objects qm !! r) as [q0|] eqn:Hq0; simpl; [|done].
    intros [= <-]. repeat split; simpl; done.
  - unfold notifyError.
    destruct (Map.get questionId (questions qm)) as [question|]; [|apply Hall].
    unfold deref. simpl. rewrite list_lookup_alter.
    case_decide as Heq; [subst question|apply Hall].
    destruct (objects qm !! r) as [q0|] eqn:Hq0; simpl; [|done].
    intros [= <-]. repeat split; simpl; done.
Qed.

Lemma consistent_run_from ops qm :
  (∀ r q, deref qm r = Some q → consistent q) →
  ∀ r q, deref (run ops qm) r = Some q → consistent q.
Proof.
  revert qm. induction ops as [|op ops IH]; intros qm Hall; [done|].
  simpl. apply IH. by apply consistent_step.
Qed.

End Ledger.

(** ** Notifications for an id the Ledger does not hold *)

(** C7.  For an id that is absent from the Ledger, [notifyResponseComplete]
    (resolve) and [notifyError] (fail) return normally and leave the whole
    Ledger as it was. *)
Theorem notify_absent_id qm questionId r e :
  getAnswer questionId qm = None →
  notifyResponseComplete questionId r qm = qm
  ∧ notifyError questionId e qm = qm.
Proof.
  unfold getAnswer, notifyResponseComplete, notifyError. by intros ->.
Qed.

(** An id the Ledger of the example never issued. *)
Lemma notify_absent_id_witness :
  getAnswer (js "q_0_unknown") ledger1 = None
  ∧ notifyResponseComplete (js "q_0_unknown") (js "4") ledger1 = ledger1
  ∧ notifyError (js "q_0_unknown") (js "late") ledger1 = ledger1.
Proof.
  split; [vm_compute; reflexivity|].
  apply notify_absent_id. vm_compute. reflexivity.
Defined.

(** ** Notifications for a question that is already terminal *)

Example q1_value : q1 = js "q_1718000000000_k3x9q2m7p".
Proof. vm_compute. reflexivity. Qed.

(** Two questions: answering the first leaves the second [thinking]. *)
Example two_questions :
  let (q2, ledger2) := submitQuestion env2 (js "And 3+3?") ledger1 in
  let ledger3 := notifyResponseComplete q1 (js "4") ledger2 in
  q2 = js "q_1718000000500_b81wz0c4r"
  ∧ getAllQuestions ledger3 = [0; 1]
  ∧ status <$> readAnswer q1 ledger3 = Some st_finished
  ∧ status <$> readAnswer q2 ledger3 = Some st_thinking.
Proof. vm_compute. repeat split; reflexivity. Qed.

Example resolve_scenario :
  readAnswer q1 (notifyResponseComplete q1 (js "4") ledger1)
  = Some {| id := q1; status := st_finished; request := js "What is 2+2?";
            response := Some (js "4"); error := None;
            createdAt := 1718000000000%N |}.
Proof. vm_compute. reflexivity. Qed.

(** C1, as the specification states it, fails: after [resolve(q1, "4")] a
    second [resolve(q1, "5")] replaces the response, and [fail(q1, "late")]
    takes the question to [error]. *)
Lemma second_notification_not_ignored :
  let qm1 := notifyResponseComplete q1 (js "4") ledger1 in
  (response <$> readAnswer q1 (notifyResponseComplete q1 (js "5") qm1)
     = Some (Some (js "5"))
   ∧ response <$> readAnswer q1 (notifyResponseComplete q1 (js "5") qm1)
     ≠ Some (Some (js "4")))
  ∧ (status <$> readAnswer q1 (notifyError q1 (js "late") qm1)
     = Some st_error
   ∧ status <$> readAnswer q1 (notifyError q1 (js "late") qm1)
     ≠ Some st_finished).
Proof. vm_compute. repeat split; discriminate. Qed.

(** C1, amended.  A notification for a question that [resolve(id, r)] has
    answered is applied like any other, and never raises: a second
    [resolve(id, r')] leaves the question [finished] with response [r'],
    and [fail(id, e)] takes it to [error] with error [e], the response [r]
    staying set; [id], [request] and [createdAt] are kept. *)
Theorem notification_after_resolve qm questionId r r' e q :
  readAnswer questionId qm = Some q →
  let qm1 := notifyResponseComplete questionId r qm in
  readAnswer questionId (notifyResponseComplete questionId r' qm1)
  = Some {| id := id q; status := st_finished; request := request q;
            response := Some r'; error := error q;
            createdAt := createdAt q |}
  ∧ readAnswer questionId (notifyError questionId e qm1)
    = Some {| id := id q; status := st_error; request := request q;
              response := Some r; error := Some e;
              createdAt := createdAt q |}.
Proof.
  intros Hq qm1. subst qm1.
  rewrite readAnswer_notifyError, !readAnswer_notifyResponseComplete, Hq.
  done.
Qed.

(** The scenario of the specification, with a late duplicate and a late
    failure. *)
Lemma notification_after_resolve_witness :
  let qm1 := notifyResponseComplete q1 (js "4") ledger1 in
  readAnswer q1 (notifyResponseComplete q1 (js "5") qm1)
  = Some {| id := q1; status := st_finished; request := js "What is 2+2?";
            response := Some (js "5"); error := None;
            createdAt := 1718000000000%N |}
  ∧ readAnswer q1 (notifyError q1 (js "late") qm1)
    = Some {| id := q1; status := st_error; request := js "What is 2+2?";
              response := Some (js "4"); error := Some (js "late");
              createdAt := 1718000000000%N |}.
Proof.
  apply (notification_after_resolve ledger1 q1 (js "4") (js "5") (js "late")
           {| id := q1; status := st_thinking; request := js "What is 2+2?";
              response := None; error := None;
              createdAt := 1718000000000%N |}).
  vm_compute. reflexivity.
Defined.

(** ** The invariant of a Question *)

(** C2, as the specification states it, fails: after submit, resolve and
    fail, in that order, the question has both a response and an error,
    and the fail changed a question that was terminal. *)
Lemma response_and_error_both_set :
  let ops := [ op_submit env1 (js "What is 2+2?");
               op_resolve q1 (js "4");
               op_fail q1 (js "late") ] in
  status <$> readAnswer q1 (run (take 2 ops) new_QuestionManager)
    = Some st_finished
  ∧ readAnswer q1 (run ops new_QuestionManager)
    = Some {| id := q1; status := st_error; request := js "What is 2+2?";
              response := Some (js "4"); error := Some (js "late");
              createdAt := 1718000000000%N |}.
Proof. vm_compute. split; reflexivity. Qed.

(** An operation that is about another id leaves the question of this
    one as it reads. *)
Lemma readAnswer_step_other op qm k :
  well_formed qm → target op ≠ k →
  readAnswer k (step op qm) = readAnswer k qm.
Proof.
  intros Hwf Hk. destruct op as [env text|questionId r|questionId e];
    simpl in *.
  - destruct Hwf as (_ & Hin & _).
    unfold readAnswer, getAnswer. simpl.
    rewrite MapFacts.get_set_ne by done.
    destruct (Map.get k (questions qm)) as [question|] eqn:Hget; [|done].
    simpl. unfold deref. simpl. apply lookup_app_l. by apply (Hin k).
  - by apply (readAnswer_notify_other qm questionId k r []).
  - by apply (readAnswer_notify_other qm questionId k [] e).
Qed.

(** What an operation makes of the question stored under an id: a submit
    that generates the id again replaces it by a new question; every
    other operation keeps its [request] and [createdAt], and keeps it from
    [thinking] once it has left it. *)
Lemma step_entry op qm k q :
  well_formed qm → readAnswer k qm = Some q →
  ∃ q', readAnswer k (step op qm) = Some q'
        ∧ ((∃ env text,
               op = op_submit env text ∧ generateQuestionId env = k
               ∧ q' = {| id := k; status := st_thinking; request := text;
                         response := None; error := None;
                         createdAt := new_Date env |})
           ∨ ((∀ env text, op = op_submit env text →
                           generateQuestionId env ≠ k)
              ∧ id q' = id q ∧ request q' = request q
              ∧ createdAt q' = createdAt q
              ∧ (status q ≠ st_thinking → status q' ≠ st_thinking))).
Proof.
  intros Hwf Hq. destruct (decide (target op = k)) as [Hk|Hk].
  - destruct op as [env text|questionId r|questionId e]; simpl in Hk; subst k.
    + eexists. split; [apply readAnswer_submitQuestion|].
      left. by exists env, text.
    + simpl. rewrite readAnswer_notifyResponseComplete, Hq. simpl.
      eexists. split; [done|]. right. by split_and!.
    + simpl. rewrite readAnswer_notifyError, Hq. simpl.
      eexists. split; [done|]. right. by split_and!.
  - exists q. split; [by rewrite readAnswer_step_other|].
    right. split_and!; try done.
    intros env text -> Heq. by apply Hk.
Qed.

Lemma ids_match_step op qm :
  well_formed qm → ids_match qm → ids_match (step op qm).
Proof.
  intros Hwf Hids k q' Hq'. destruct (decide (target op = k)) as [Hk|Hk].
  - destruct op as [env text|questionId r|questionId e]; simpl in Hk; subst k.
    + pose proof (readAnswer_submitQuestion env text qm) as Hnew.
      change (readAnswer (generateQuestionId env)
                (step (op_submit env text) qm) = Some q') in Hq'.
      change (submitQuestion env text qm).1
        with (generateQuestionId env) in Hnew.
      change (submitQuestion env text qm).2
        with (step (op_submit env text) qm) in Hnew.
      rewrite Hnew in Hq'. by injection Hq' as <-.
    + simpl in Hq'. rewrite readAnswer_notifyResponseComplete in Hq'.
      destruct (readAnswer questionId qm) as [q|] eqn:Hq; [|done].
      injection Hq' as <-. simpl. by apply Hids.
    + simpl in Hq'. rewrite readAnswer_notifyError in Hq'.
      destruct (readAnswer questionId qm) as [q|] eqn:Hq; [|done].
      injection Hq' as <-. simpl. by apply Hids.
  - rewrite readAnswer_step_other in Hq' by done. by apply Hids.
Qed.

Lemma ids_match_run_from ops : ∀ qm,
  well_formed qm → ids_match qm → ids_match (run ops qm).
Proof.
  induction ops as [|op ops IH]; intros qm Hwf Hids; [done|].
  apply IH; [by apply well_formed_step | by apply ids_match_step].
Qed.

Lemma ids_match_run ops : ids_match (run ops new_QuestionManager).
Proof.
  apply ids_match_run_from; [apply well_formed_new|].
  intros k q H. discriminate H.
Qed.

(** C2, amended.  After every sequence of submit, resolve and fail, the
    Question that the Ledger stores under an id carries that id, and it has
    neither response nor error while it is [thinking], a response when it
    is [finished] and an error when it is [error].  No operation removes
    the Question stored under an id.  A resolve, a fail, and a submit that
    generates another id leave its [id], [request] and [createdAt] as they
    are, and do not take it back to [thinking]; a submit that generates
    the same id again puts a new [thinking] Question, with the submitted
    text, in its place. *)
Theorem question_invariant ops :
  let qm := run ops new_QuestionManager in
  (∀ questionId question,
      getAnswer questionId qm = Some question → is_Some (deref qm question))
  ∧ (∀ question q, deref qm question = Some q → consistent q)
  ∧ (∀ questionId q,
        readAnswer questionId qm = Some q → id q = questionId ∧ consistent q)
  ∧ (∀ op questionId q,
        readAnswer questionId qm = Some q →
        ∃ q', readAnswer questionId (step op qm) = Some q'
              ∧ id q' = id q
              ∧ ((∃ env text,
                     op = op_submit env text
                     ∧ generateQuestionId env = questionId
                     ∧ q' = {| id := questionId; status := st_thinking;
                               request := text; response := None;
                               error := None; createdAt := new_Date env |})
                 ∨ ((∀ env text, op = op_submit env text →
                                 generateQuestionId env ≠ questionId)
                    ∧ request q' = request q
                    ∧ createdAt q' = createdAt q
                    ∧ (status q ≠ st_thinking → status q' ≠ st_thinking)))).
Proof.
  intros qm.
  assert (∀ question q, deref qm question = Some q → consistent q) as Hcons.
  { apply consistent_run_from. intros r q H. discriminate H. }
  split_and!.
  - intros questionId question Hget.
    destruct (well_formed_run ops) as (_ & Hin & _).
    apply lookup_lt_is_Some. by apply (Hin questionId).
  - done.
  - intros questionId q Hq. split; [by apply (ids_match_run ops)|].
    unfold readAnswer in Hq.
    destruct (getAnswer questionId qm) as [question|]; [|done].
    by apply (Hcons question).
  - intros op questionId q Hq.
    destruct (step_entry op qm questionId q (well_formed_run ops) Hq)
      as (q' & Hq' & Hcases).
    exists q'. split; [done|].
    destruct Hcases as [(env & text & -> & Hid & ->)|(Hop & Hid & Hrest)].
    + split; [symmetry; by apply (ids_match_run ops)|].
      left. by exists env, text.
    + split; [done|]. right. by split.
Qed.

(** ** What [getAnswer] and [getAllQuestions] hand out *)

(** C6, as the specification states it, fails: the object that [getAnswer]
    returned, and that [getAllQuestions] listed, reads [finished] once
    [resolve] has run. *)
Lemma returned_question_is_live :
  getAnswer q1 ledger1 = Some 0
  ∧ getAllQuestions ledger1 = [0]
  ∧ status <$> deref ledger1 0 = Some st_thinking
  ∧ status <$> deref (notifyResponseComplete q1 (js "4") ledger1) 0
    = Some st_finished
  ∧ deref (notifyResponseComplete q1 (js "4") ledger1) 0 ≠ deref ledger1 0.
Proof. vm_compute. repeat split; discriminate. Qed.

(** C6, amended.  [getAnswer] returns the Ledger's own object and
    [getAllQuestions] a new array of the Ledger's own objects, one for
    each id: a resolve or fail performed later is an assignment to that
    object and is seen through the reference the earlier call returned. *)
Theorem notifications_seen_through_references ops :
  let qm := run ops new_QuestionManager in
  (∀ question,
      question ∈ getAllQuestions qm
      ↔ ∃ questionId, getAnswer questionId qm = Some question)
  ∧ (∀ questionId question,
        getAnswer questionId qm = Some question →
        is_Some (deref qm question)
        ∧ (∀ r, deref (notifyResponseComplete questionId r qm) question
                = (λ q, set_response r (set_status st_finished q))
                    <$> deref qm question)
        ∧ (∀ e, deref (notifyError questionId e qm) question
                = (λ q, set_error e (set_status st_error q))
                    <$> deref qm question)).
Proof.
  intros qm. destruct (well_formed_run ops) as (Hnd & Hin & _).
  fold qm in Hnd, Hin.
  split.
  - intros question. split.
    + by apply MapFacts.values_get.
    + intros [questionId H]. by apply MapFacts.get_Some_values in H.
  - intros questionId question Hget. split_and!.
    + apply lookup_lt_is_Some. by apply (Hin questionId).
    + intros r. by apply deref_notifyResponseComplete.
    + intros e. by apply deref_notifyError.
Qed.

(** ** [trim] *)

Section Trim.
Implicit Types (s : jsstring).

Lemma trimStart_nil s : trimStart s = [] ↔ forallb isWhiteSpace s = true.
Proof.
  induction s as [|c s IH]; simpl; [done|].
  destruct (isWhiteSpace c); simpl; [done|]. split; discriminate.
Qed.

(** What [trimStart] leaves does not start with white space. *)
Lemma trimStart_head s c t : trimStart s = c :: t → isWhiteSpace c = false.
Proof.
  induction s as [|c' s IH]; simpl; [done|].
  destruct (isWhiteSpace c') eqn:Hc'; [done|]. by intros [= <- _].
Qed.

Lemma forallb_reverse s :
  forallb isWhiteSpace (reverse s) = forallb isWhiteSpace s.
Proof.
  induction s as [|c s IH]; [done|].
  rewrite reverse_cons, forallb_app, IH. simpl.
  rewrite andb_true_r. apply andb_comm.
Qed.

(** [trim] gives the empty string on the strings that are empty or white
    space only, and on no other. *)
Lemma trim_nil s : trim s = [] ↔ forallb isWhiteSpace s = true.
Proof.
  unfold trim, trimEnd. split.
  - intros H. apply (f_equal reverse) in H.
    rewrite reverse_involutive in H. change (reverse []) with (@nil N) in H.
    apply trimStart_nil in H. rewrite forallb_reverse in H.
    destruct (trimStart s) as [|c t] eqn:Hs; [by apply trimStart_nil|].
    apply trimStart_head in Hs. simpl in H. by rewrite Hs in H.
  - intros H. apply trimStart_nil in H. by rewrite H.
Qed.

(** [trimStart] removes a prefix of white space, and nothing else. *)
Lemma trimStart_split s :
  ∃ ws, s = ws ++ trimStart s ∧ forallb isWhiteSpace ws = true.
Proof.
  induction s as [|c s (ws & Hs & Hws)]; simpl; [by exists []|].
  destruct (isWhiteSpace c) eqn:Hc; [|by exists []].
  exists (c :: ws). simpl. rewrite Hc, Hws. by rewrite <- Hs.
Qed.

(** [trim] removes white space around the text, and nothing else. *)
Lemma trim_split s :
  ∃ before after,
    s = before ++ trim s ++ after
    ∧ forallb isWhiteSpace before = true
    ∧ forallb isWhiteSpace after = true.
Proof.
  destruct (trimStart_split s) as (before & Hs & Hbefore).
  destruct (trimStart_split (reverse (trimStart s))) as (ws & Hr & Hws).
  exists before, (reverse ws). split_and!; [|done|by rewrite forallb_reverse].
  unfold trim, trimEnd. rewrite <- reverse_app, <- Hr, reverse_involutive.
  done.
Qed.

Example trim_example :
  trim (js "  What is 2+2? " ++ [10%N]) = js "What is 2+2?".
Proof. vm_compute. reflexivity. Qed.

End Trim.

(** ** Submission through Front End A *)

Section FrontEndA.
Import Http.
Implicit Types (onSubmitQuestion : option SubmitHandler) (s : jsstring).

(** What is not a string, or is a string of white space only, is
    rejected, and the Ledger is the one the route found. *)
Lemma post_question_rejects onSubmitQuestion env text qm :
  match text with
  | JString s => forallb isWhiteSpace s = true
  | _ => True
  end →
  post_question onSubmitQuestion env text qm = (invalid_text, qm).
Proof.
  unfold post_question. destruct text as [| |b|nz|s|]; intros H;
    try (by destruct (negb _)).
  apply trim_nil in H. destruct (negb _); [done|].
  rewrite H. done.
Qed.

(** Any other string is trimmed and submitted, then handed to the
    handler. *)
Lemma post_question_accepts onSubmitQuestion env s qm :
  trim s ≠ [] →
  post_question onSubmitQuestion env (JString s) qm
  = let questionId := (submitQuestion env (trim s) qm).1 in
    let qm1 := (submitQuestion env (trim s) qm).2 in
    match onSubmitQuestion with
    | Some handler =>
        let d := handler (trim s) questionId in
        (match raised d with
         | Some _ => reply_error 500 "Internal server error"
         | None => reply_questionId questionId
         end, run (effects d) qm1)
    | None => (reply_questionId questionId, qm1)
    end.
Proof.
  intros Hs. unfold post_question.
  assert (s ≠ []) as Hne by (intros ->; by apply Hs).
  simpl. rewrite bool_decide_true by done. simpl.
  rewrite decide_False by (by destruct (trim s)).
  simpl. destruct onSubmitQuestion as [handler|]; [|done].
  by destruct (raised _).
Qed.

End FrontEndA.

(** C3, as the specification states it, fails: [submitQuestion] takes the
    empty text and a text of blanks as it takes any other, and stores a
    question for each; so does [ask], which hands its text to
    [submitQuestion] as it comes. *)
Lemma submitQuestion_accepts_blank_text :
  let blank := js "   " in
  forallb isWhiteSpace blank = true
  ∧ readAnswer (submitQuestion env1 blank new_QuestionManager).1
               (submitQuestion env1 blank new_QuestionManager).2
    = Some {| id := q1; status := st_thinking; request := blank;
              response := None; error := None;
              createdAt := 1718000000000%N |}
  ∧ getAllQuestions (submitQuestion env1 blank new_QuestionManager).2 = [0]
  ∧ getAllQuestions (submitQuestion env1 [] new_QuestionManager).2 = [0]
  ∧ request <$> readAnswer q1
      (Mcp.ask (Some forwards) env1 blank true idle new_QuestionManager).2
    = Some blank.
Proof. vm_compute. repeat split; reflexivity. Qed.

(** C3, amended.  The Ledger's submit validates nothing: for every text
    [submitQuestion] creates a Question with status [thinking] and returns
    its id.  The validation is Front End A's: [POST /question] rejects a
    text that is not a string, is empty or is white space only with a 400
    reply before any state mutation, and for every other text it creates a
    Question with status [thinking] for the trimmed text and, the handler
    returning normally, replies with its id. *)
Theorem submit_validation onSubmitQuestion env qm :
  (∀ text,
      readAnswer (submitQuestion env text qm).1 (submitQuestion env text qm).2
      = Some {| id := (submitQuestion env text qm).1; status := st_thinking;
                request := text; response := None; error := None;
                createdAt := new_Date env |})
  ∧ (∀ text,
        match text with
        | Http.JString s => forallb isWhiteSpace s = true
        | _ => True
        end →
        Http.post_question onSubmitQuestion env text qm
        = (Http.invalid_text, qm)
        ∧ Http.statusCode Http.invalid_text = 400)
  ∧ (∀ s,
        forallb isWhiteSpace s = false →
        let questionId := (submitQuestion env (trim s) qm).1 in
        let qm1 := (submitQuestion env (trim s) qm).2 in
        let d := from_option (λ handler, handler (trim s) questionId)
                             {| effects := []; raised := None |}
                             onSubmitQuestion in
        status <$> readAnswer questionId qm1 = Some st_thinking
        ∧ (Http.post_question onSubmitQuestion env (Http.JString s) qm).2
          = run (effects d) qm1
        ∧ (raised d = None →
           (Http.post_question onSubmitQuestion env (Http.JString s) qm).1
           = Http.reply_questionId questionId)).
Proof.
  split_and!.
  - intros text. apply readAnswer_submitQuestion.
  - intros text H. split; [by apply post_question_rejects | done].
  - intros s Hs questionId qm1 d.
    assert (trim s ≠ []) as Htrim.
    { intros H%trim_nil. congruence. }
    rewrite post_question_accepts by done. fold questionId qm1.
    split_and!.
    + unfold questionId, qm1. by rewrite readAnswer_submitQuestion.
    + subst d. by destruct onSubmitQuestion.
    + subst d. destruct onSubmitQuestion as [handler|]; simpl; [|done].
      by intros ->.
Qed.

(** Inside [POST /question]: for a text that the route accepts, the
    submit that it performs, followed at once by [getAnswer] on the id it
    returned, finds a Question with status [thinking] whose request is the
    submitted text, trimmed; that id is the one the route replies with, and
    the Ledger the handler and the route's caller are left with is the one
    of that submit, up to what the handler itself does to it. *)
Theorem submit_then_getAnswer onSubmitQuestion env s qm :
  trim s ≠ [] →
  let questionId := (submitQuestion env (trim s) qm).1 in
  let qm1 := (submitQuestion env (trim s) qm).2 in
  let d := from_option (λ handler, handler (trim s) questionId)
                       {| effects := []; raised := None |}
                       onSubmitQuestion in
  (∃ question q,
      getAnswer questionId qm1 = Some question
      ∧ deref qm1 question = Some q
      ∧ id q = questionId ∧ status q = st_thinking ∧ request q = trim s
      ∧ response q = None ∧ error q = None)
  ∧ Http.get_answer questionId qm1
    = Http.reply_answer
        {| id := questionId; status := st_thinking; request := trim s;
           response := None; error := None; createdAt := new_Date env |}
  ∧ (Http.post_question onSubmitQuestion env (Http.JString s) qm).2
    = run (effects d) qm1
  ∧ (raised d = None →
     (Http.post_question onSubmitQuestion env (Http.JString s) qm).1
     = Http.reply_questionId questionId).
Proof.
  intros Htrim questionId qm1 d.
  pose proof (readAnswer_submitQuestion env (trim s) qm) as Hread.
  fold questionId qm1 in Hread.
  split_and!.
  - unfold readAnswer in Hread.
    destruct (getAnswer questionId qm1) as [question|]; [|done].
    exists question. eexists. split_and!; [done|exact Hread|done..].
  - unfold Http.get_answer. rewrite decide_False.
    + by rewrite Hread.
    + subst questionId. simpl. unfold generateQuestionId. done.
  - rewrite post_question_accepts by done. fold questionId qm1.
    subst d. by destruct onSubmitQuestion.
  - rewrite post_question_accepts by done. fold questionId qm1.
    subst d. destruct onSubmitQuestion as [handler|]; simpl; [|done].
    by intros ->.
Qed.

(** A question posted with blanks around it, read back through
    [GET /answer]. *)
Lemma submit_then_getAnswer_witness :
  trim (js " What is 2+2? ") ≠ []
  ∧ Http.get_answer q1
      (Http.post_question None env1 (Http.JString (js " What is 2+2? "))
                          new_QuestionManager).2
    = Http.reply_answer
        {| id := q1; status := st_thinking; request := js "What is 2+2?";
           response := None; error := None; createdAt := 1718000000000%N |}.
Proof.
  assert (trim (js " What is 2+2? ") ≠ []) as H by (vm_compute; discriminate).
  split; [exact H|].
  destruct (submit_then_getAnswer None env1 (js " What is 2+2? ")
              new_QuestionManager H) as (_ & Hget & Hpost & _).
  rewrite Hpost. exact Hget.
Defined.

(** Running one sequence of operations after another. *)
Lemma run_app ops1 ops2 (qm : QuestionManager) :
  run (ops1 ++ ops2) qm = run ops2 (run ops1 qm).
Proof. apply foldl_app. Qed.

(** The question under an id after operations that are all about other
    ids, after operations none of which is a submit that generates the id
    again, and after operations the last of which fails it. *)
Lemma run_entry ops : ∀ qm k q,
  well_formed qm → readAnswer k qm = Some q →
  ((∀ op, op ∈ ops → target op ≠ k) → readAnswer k (run ops qm) = Some q)
  ∧ ((∀ op env text, op ∈ ops → op = op_submit env text →
                     generateQuestionId env ≠ k) →
     ∃ q', readAnswer k (run ops qm) = Some q'
           ∧ id q' = id q ∧ request q' = request q
           ∧ createdAt q' = createdAt q)
  ∧ is_Some (readAnswer k (run ops qm)).
Proof.
  induction ops as [|op ops IH]; intros qm k q Hwf Hq.
  - split_and!; [done | by exists q | by eexists].
  - change (run (op :: ops) qm) with (run ops (step op qm)).
    pose proof (well_formed_step op qm Hwf) as Hwf'.
    destruct (step_entry op qm k q Hwf Hq) as (q1 & Hq1 & Hcases).
    destruct (IH (step op qm) k q1 Hwf' Hq1) as (Hother & Hkept & Hsome).
    split_and!; [| |done].
    + intros Hall.
      assert (q1 = q) as ->.
      { rewrite readAnswer_step_other in Hq1; [congruence|done|].
        apply Hall, list_elem_of_here. }
      apply Hother. intros op' Hop'. by apply Hall, list_elem_of_further.
    + intros Hall.
      destruct Hcases as [(env & text & -> & Hk & _)|(_ & Hid & Hreq & Hcr & _)].
      { exfalso.
        apply (Hall (op_submit env text) env text); [|done..].
        apply list_elem_of_here. }
      destruct Hkept as (q' & Hq' & Hid' & Hreq' & Hcr').
      { intros op' env text Hop'. by apply Hall, list_elem_of_further. }
      exists q'. split_and!; [done|congruence..].
Qed.

(** What the Bridge does with a question when no prompt is registered on
    it and its callbacks are the Ledger's notifications is what the
    handler [unregistered_bridge] does. *)
Lemma unregistered_bridge_is_the_Bridge
    (b : Tui.TuiIntegration QuestionManager) text questionId qm :
  Tui.callbacks b = ledger_callbacks →
  Map.get (js "current") (Tui.pendingQuestions b) = None →
  Tui.submitQuestion text questionId b qm
  = (b, run (effects (unregistered_bridge text questionId)) qm).
Proof.
  intros Hcb Hnone. unfold Tui.submitQuestion. by rewrite Hnone, Hcb.
Qed.

(** C5, as the specification states it, fails: [POST /question] calls the
    submit handler before it replies, and the handler can have failed the
    question by then.  With the Bridge as handler and no prompt registered,
    the route replies with the id, and the first [GET /answer] on that id
    reads [error], not [thinking]. *)
Lemma handler_fails_before_reply :
  let b := Tui.setCallbacks ledger_callbacks Tui.new_TuiIntegration in
  let posted := Http.post_question (Some unregistered_bridge) env1
                  (Http.JString (js " What is 2+2? ")) new_QuestionManager in
  Tui.submitQuestion (js "What is 2+2?") q1 b ledger1
  = (b, notifyError q1 (js "TUI not available") ledger1)
  ∧ posted.1 = Http.reply_questionId q1
  ∧ Http.get_answer q1 posted.2
    = Http.reply_answer
        {| id := q1; status := st_error; request := js "What is 2+2?";
           response := None; error := Some (js "TUI not available");
           createdAt := 1718000000000%N |}
  ∧ status <$> readAnswer q1 posted.2 ≠ Some st_thinking.
Proof. vm_compute. split_and!; try reflexivity. discriminate. Qed.

(** C5, amended.  For a text that Front End A accepts, submitted on a
    Ledger reached by operations on a new one, [POST /question] replies
    with the id when the submit handler returns.  Right after the route's
    submit, before the handler runs, [getAnswer] on that id finds the
    [thinking] Question whose request is the submitted text, trimmed; the
    Ledger the route leaves is that one after what the handler did to it.
    [getAnswer] on the id right after the route finds a Question.  Its
    request is the submitted text, trimmed, as long as the handler did not
    submit under the same id again.  Its status is [thinking] when what the
    handler did to the Ledger before it returned was not about that id (as
    when no handler is set, or the handler leaves the Ledger alone); a
    handler that ends by failing the question leaves it [error] with the
    handler's message. *)
Theorem post_question_then_getAnswer ops onSubmitQuestion env s :
  trim s ≠ [] →
  let qm := run ops new_QuestionManager in
  let questionId := generateQuestionId env in
  let d := from_option (λ handler, handler (trim s) questionId)
                       {| effects := []; raised := None |}
                       onSubmitQuestion in
  let posted := Http.post_question onSubmitQuestion env (Http.JString s) qm in
  let pending := {| id := questionId; status := st_thinking;
                    request := trim s; response := None; error := None;
                    createdAt := new_Date env |} in
  (raised d = None → posted.1 = Http.reply_questionId questionId)
  ∧ (let submitted := submitQuestion env (trim s) qm in
     submitted.1 = questionId
     ∧ readAnswer questionId submitted.2 = Some pending
     ∧ posted.2 = run (effects d) submitted.2)
  ∧ (∃ q, readAnswer questionId posted.2 = Some q
          ∧ Http.get_answer questionId posted.2 = Http.reply_answer q)
  ∧ ((∀ op env' text', op ∈ effects d → op = op_submit env' text' →
                       generateQuestionId env' ≠ questionId) →
     ∃ q, readAnswer questionId posted.2 = Some q
          ∧ id q = questionId ∧ request q = trim s
          ∧ createdAt q = new_Date env)
  ∧ ((∀ op, op ∈ effects d → target op ≠ questionId) →
     readAnswer questionId posted.2 = Some pending
     ∧ Http.get_answer questionId posted.2 = Http.reply_answer pending)
  ∧ (∀ before e,
        effects d = before ++ [op_fail questionId e] →
        ∃ q, readAnswer questionId posted.2 = Some q
             ∧ status q = st_error ∧ error q = Some e).
Proof.
  intros Htrim qm questionId d posted pending.
  set (qm1 := (submitQuestion env (trim s) qm).2).
  assert (posted.2 = run (effects d) qm1) as Hledger.
  { subst posted d. rewrite post_question_accepts by done. cbv zeta.
    by destruct onSubmitQuestion. }
  assert (well_formed qm1) as Hwf.
  { apply well_formed_submit, well_formed_run. }
  assert (readAnswer questionId qm1 = Some pending) as Hq1.
  { apply readAnswer_submitQuestion. }
  assert (questionId ≠ []) as Hne by done.
  assert (∀ q, readAnswer questionId posted.2 = Some q →
               Http.get_answer questionId posted.2 = Http.reply_answer q)
    as Hget.
  { intros q Hq. unfold Http.get_answer.
    by rewrite decide_False, Hq by done. }
  destruct (run_entry (effects d) qm1 questionId pending Hwf Hq1)
    as (Hother & Hkept & [q Hq]).
  rewrite <- Hledger in Hother, Hkept, Hq.
  split_and!.
  - intros Hraised. subst posted d.
    rewrite post_question_accepts by done. cbv zeta.
    destruct onSubmitQuestion as [handler|]; [|done].
    change (raised (handler (trim s) (submitQuestion env (trim s) qm).1)
            = None) in Hraised.
    by rewrite Hraised.
  - done.
  - exists q. split; [done | by apply Hget].
  - intros Hall. destruct (Hkept Hall) as (q' & Hq' & Hid & Hreq & Hcr).
    by exists q'.
  - intros Hall. split; [by apply Hother | by apply Hget, Hother].
  - intros before e Heffects. rewrite Hledger, Heffects, run_app. simpl.
    rewrite readAnswer_notifyError.
    destruct (run_entry before qm1 questionId pending Hwf Hq1)
      as (_ & _ & [q0 ->]).
    simpl. by eexists.
Qed.

(** A question posted with blanks around it and no handler set reads
    [thinking] through [GET /answer]; with a handler that leaves the Ledger
    alone, likewise. *)
Lemma post_question_then_getAnswer_witness :
  trim (js " What is 2+2? ") ≠ []
  ∧ Http.get_answer q1
      (Http.post_question (Some forwards) env1
         (Http.JString (js " What is 2+2? ")) new_QuestionManager).2
    = Http.reply_answer
        {| id := q1; status := st_thinking; request := js "What is 2+2?";
           response := None; error := None; createdAt := 1718000000000%N |}.
Proof.
  assert (trim (js " What is 2+2? ") ≠ []) as H by (vm_compute; discriminate).
  split; [exact H|].
  destruct (post_question_then_getAnswer [] (Some forwards) env1
              (js " What is 2+2? ") H) as (_ & _ & _ & _ & Hpending & _).
  apply Hpending. intros op Hop. by apply elem_of_nil in Hop.
Defined.

(** ** The bounded wait of [ask] *)

Section BoundedWait.
Import Mcp.
Variables (stream : bool) (questionId : jsstring) (sched : nat → list Op).

Lemma poll_exit_None retries question :
  poll_exit stream questionId retries question = None
  ↔ ∀ q, question = Some q → status q = st_thinking.
Proof.
  unfold poll_exit. destruct question as [q|]; [|done].
  case_bool_decide as Hst.
  - split; [by case_bool_decide|].
    intros H. specialize (H q eq_refl). destruct Hst; congruence.
  - split; [|done]. intros _ ? [= <-].
    destruct (status q); [done|..]; exfalso; apply Hst; auto.
Qed.

Lemma poll_exit_finished retries q :
  status q = st_finished →
  poll_exit stream questionId retries (Some q)
  = Some (Content (success_text stream questionId q retries)).
Proof.
  unfold poll_exit. intros ->.
  rewrite bool_decide_true by auto. by rewrite bool_decide_false.
Qed.

Lemma poll_exit_error retries q :
  status q = st_error →
  poll_exit stream questionId retries (Some q)
  = Some (Thrown (or_else (error q) (js "TUI processing failed"))).
Proof.
  unfold poll_exit. intros ->.
  rewrite bool_decide_true by auto. by rewrite bool_decide_true.
Qed.

(** While [getAnswer] finds the question [thinking] (or finds none), the
    loop sleeps and goes round. *)
Lemma poll_waiting k : ∀ left retries qm,
  k ≤ left →
  (∀ j, j < k →
     ∀ q, readAnswer questionId (ledger_from sched retries j qm) = Some q →
          status q = st_thinking) →
  poll stream questionId sched left retries qm
  = poll stream questionId sched (left - k) (retries + k)
         (ledger_from sched retries k qm).
Proof.
  induction k as [|k IH]; intros left retries qm Hk Hwait.
  - by rewrite Nat.sub_0_r, Nat.add_0_r.
  - destruct left as [|left]; [lia|]. simpl.
    assert (poll_exit stream questionId retries (readAnswer questionId qm)
            = None) as ->.
    { apply poll_exit_None. apply (Hwait 0). lia. }
    rewrite IH.
    + by replace (S retries + k) with (retries + S k) by lia.
    + lia.
    + intros j Hj. apply (Hwait (S j)). lia.
Qed.

Lemma poll_exits left retries qm r :
  0 < left →
  poll_exit stream questionId retries (readAnswer questionId qm) = Some r →
  poll stream questionId sched left retries qm = (r, retries, qm).
Proof. destruct left as [|left]; [lia|]. simpl. by intros _ ->. Qed.


End BoundedWait.

(** [ask], the handler set, in terms of what [submitQuestion] returns. *)
Lemma ask_with_handler handler env text stream sched qm :
  Mcp.ask (Some handler) env text stream sched qm
  = let questionId := (submitQuestion env text qm).1 in
    let qm2 := run (effects (handler text questionId))
                   (submitQuestion env text qm).2 in
    match raised (handler text questionId) with
    | Some err => (Mcp.Thrown err, 0, qm2)
    | None => Mcp.poll stream questionId sched Mcp.maxRetries 0 qm2
    end.
Proof. reflexivity. Qed.

(** The pieces of the success payload: the response and the metadata. *)
Lemma success_text_contents stream questionId q retries :
  [ Mcp.Str (Mcp.or_else (response q) (js "No response received"));
    Mcp.Str questionId; Mcp.StatusStr (status q);
    Mcp.IsoString (createdAt q); Mcp.NumStr (retries * 2) ]
  ⊆ Mcp.success_text stream questionId q retries.
Proof.
  intros p Hp. unfold Mcp.success_text.
  repeat (apply elem_of_cons in Hp as [->|Hp]; [set_solver|]).
  by apply elem_of_nil in Hp.
Qed.




(** ** [ask] without a submit handler *)

(** C10.  With no submit handler set, [ask] fails with its routing error
    before it polls, and the Ledger it leaves is the one [submitQuestion]
    made: the new Question is stored, [thinking], and [getAnswer] finds it
    under the id that was generated. *)
Theorem ask_without_handler env text stream sched qm :
  let questionId := (submitQuestion env text qm).1 in
  let result := Mcp.ask None env text stream sched qm in
  result.1.1
  = Mcp.Thrown
      (js "MCP server not properly integrated with TUI - no submit handler set")
  ∧ result.2 = (submitQuestion env text qm).2
  ∧ (∃ question, getAnswer questionId result.2 = Some question
                 ∧ question ∈ getAllQuestions result.2)
  ∧ readAnswer questionId result.2
    = Some {| id := questionId; status := st_thinking; request := text;
              response := None; error := None; createdAt := new_Date env |}.
Proof.
  intros questionId result.
  assert (result.2 = (submitQuestion env text qm).2) as Hledger by reflexivity.
  split_and!; [reflexivity | done | |].
  - rewrite Hledger. unfold getAnswer, getAllQuestions. simpl.
    eexists. split; [apply MapFacts.get_set_eq|].
    eapply MapFacts.get_Some_values, MapFacts.get_set_eq.
  - rewrite Hledger. apply readAnswer_submitQuestion.
Qed.

(** ** The Session Table *)

Section SessionTable.
Import Mcp.
Implicit Types (transports : gmap jsstring Transport) (sid : jsstring).
Implicit Types (does : Handling).

(** A session id that is not empty, has no entry in the table and is not
    the name of a property of [Object.prototype] gets the 400 reply of each
    route, and the table stays as it is: no transport is asked. *)
Lemma absent_session_rejected does transports sid isInitialize :
  transports !! sid = None → sid ≠ [] → sid ∉ Object_prototype →
  post_mcp does (Some sid) isInitialize transports
  = (jsonrpc_error 400 (-32000) "Bad Request: No valid session ID provided",
     transports)
  ∧ get_mcp does (Some sid) transports
    = (plain 400 "Invalid or missing session ID", transports)
  ∧ delete_mcp does (Some sid) transports
    = (plain 400 "Invalid or missing session ID", transports).
Proof.
  intros Hnone Hne Hproto.
  assert (transports_get transports sid = undefined) as Hget.
  { unfold transports_get. rewrite Hnone. by rewrite bool_decide_false. }
  assert (header_truthy (Some sid) = true) as Hh by (by destruct sid).
  unfold post_mcp, get_mcp, delete_mcp. cbv zeta.
  change (default [] (Some sid)) with sid. rewrite Hget, Hh. done.
Qed.

(** A request under the id of a live session goes to its transport: the
    reply is the one the transport writes, and the table is what the
    handlers it calls make of it. *)
Lemma live_session_routed does transports sid t isInitialize code :
  transports !! sid = Some t → sid ≠ [] → wrote does = Some code →
  post_mcp does (Some sid) isInitialize transports
  = (handled t code, handleRequest does t transports)
  ∧ get_mcp does (Some sid) transports
    = (handled t code, handleRequest does t transports)
  ∧ delete_mcp does (Some sid) transports
    = (handled t code, handleRequest does t transports).
Proof.
  intros Hsome Hne Hwrote.
  assert (transports_get transports sid = own t) as Hget.
  { unfold transports_get. by rewrite Hsome. }
  assert (header_truthy (Some sid) = true) as Hh by (by destruct sid).
  unfold post_mcp, get_mcp, delete_mcp. cbv zeta.
  change (default [] (Some sid)) with sid. rewrite Hget, Hh, Hwrote. done.
Qed.

(** After [onclose] the session's id has no entry. *)
Lemma onclose_removes transports sid :
  onclose {| sessionId := Some sid |} transports !! sid = None
  ∨ (sid = [] ∧ onclose {| sessionId := Some sid |} transports = transports).
Proof.
  unfold onclose. simpl. destruct sid as [|c sid]; [by right|]. left.
  simpl. unfold transports_get.
  destruct (transports !! (c :: sid)) as [t|] eqn:Hget; simpl.
  - apply lookup_delete_eq.
  - case_bool_decide; simpl; [apply lookup_delete_eq | done].
Qed.

End SessionTable.

(** C8: the routes miss a case.  The session id "constructor" has no entry
    in the empty Session Table, yet [this.transports["constructor"]] is
    not undefined: [POST /mcp] answers 500, [DELETE /mcp] answers 500, and
    the handler of [GET /mcp] rejects without writing a reply.  No
    transport is reached, so this is so whatever a transport would do. *)
Lemma prototype_name_as_session_id (does : Mcp.Handling) :
  let sid := js "constructor" in
  let transports : gmap jsstring Mcp.Transport := ∅ in
  transports !! sid = None
  ∧ (Mcp.post_mcp does (Some sid) false transports).1
    = Mcp.jsonrpc_error 500 (-32603) "Internal server error"
  ∧ (Mcp.get_mcp does (Some sid) transports).1 = Mcp.unhandled_rejection
  ∧ (Mcp.delete_mcp does (Some sid) transports).1
    = Mcp.plain 500 "Error processing session termination"
  ∧ ¬ Mcp.client_error (Mcp.post_mcp does (Some sid) false transports).1
  ∧ ¬ Mcp.client_error (Mcp.get_mcp does (Some sid) transports).1
  ∧ ¬ Mcp.client_error (Mcp.delete_mcp does (Some sid) transports).1.
Proof.
  intros sid transports.
  assert (Mcp.transports_get transports sid = Mcp.inherited sid) as Hget.
  { unfold Mcp.transports_get, transports. rewrite lookup_empty.
    by rewrite bool_decide_true by (vm_compute; set_solver). }
  unfold Mcp.post_mcp, Mcp.get_mcp, Mcp.delete_mcp. cbv zeta.
  change (default [] (Some sid)) with sid. rewrite Hget.
  change (Mcp.header_truthy (Some sid)) with true. simpl.
  split_and!; try done.
  - intros (code & [= <-] & Hcode). lia.
  - intros (code & Hcode & _). discriminate Hcode.
  - intros (code & [= <-] & Hcode). lia.
Qed.

(** ** The active-question marker *)

Section Marker.
Context {W : Type}.
Implicit Types (t : Tui.TuiIntegration W) (w : W).

(** C9.  The Bridge keeps one marker, [currentQuestionId].  Each of
    [notifyResponseComplete(q)] and [notifyError(q)] sets it to null when
    it is [q], and leaves it as it is when it is anything else. *)
Theorem notification_clears_marker t w questionId arg :
  (Tui.currentQuestionId t = Some questionId →
   Tui.currentQuestionId (Tui.notifyResponseComplete questionId arg t w).1
   = None
   ∧ Tui.currentQuestionId (Tui.notifyError questionId arg t w).1 = None)
  ∧ (Tui.currentQuestionId t ≠ Some questionId →
     Tui.currentQuestionId (Tui.notifyResponseComplete questionId arg t w).1
     = Tui.currentQuestionId t
     ∧ Tui.currentQuestionId (Tui.notifyError questionId arg t w).1
       = Tui.currentQuestionId t).
Proof.
  unfold Tui.notifyResponseComplete, Tui.notifyError, Tui.cleanUp. simpl.
  split; intros H.
  - by rewrite decide_True.
  - by rewrite decide_False.
Qed.

(** With the Ledger's notifications as callbacks, a notification to the
    Bridge is one notification to the Ledger, and a question routed with
    no prompt registered is failed at once. *)
Lemma bridge_relays (b : Tui.TuiIntegration QuestionManager) qm questionId arg :
  Tui.callbacks b = ledger_callbacks →
  (Tui.notifyResponseComplete questionId arg b qm).2
  = notifyResponseComplete questionId arg qm
  ∧ (Tui.notifyError questionId arg b qm).2 = notifyError questionId arg qm
  ∧ (Map.get (js "current") (Tui.pendingQuestions b) = None →
     (Tui.submitQuestion arg questionId b qm).2
     = notifyError questionId (js "TUI not available") qm).
Proof.
  intros Hcb. unfold Tui.notifyResponseComplete, Tui.notifyError,
    Tui.submitQuestion. rewrite Hcb. simpl. split_and!; [done..|].
  by intros ->.
Qed.

(** [submitQuestion] moves the marker to the question it routes, or leaves
    it where it is when there is no prompt or the buffer refuses the
    text. *)
Lemma submitQuestion_marker t w text questionId :
  Tui.currentQuestionId (Tui.submitQuestion text questionId t w).1
  = Some questionId
  ∨ Tui.currentQuestionId (Tui.submitQuestion text questionId t w).1
    = Tui.currentQuestionId t.
Proof.
  unfold Tui.submitQuestion.
  destruct (Map.get _ _) as [current|]; [|by right].
  destruct (Tui.buffer_setText _ _ _); [|by right].
  left. by destruct (Tui.onSubmit _ _ _).
Qed.

End Marker.

(** * Further properties of the code *)

(** ** More on the [Map] *)

Module MapMore.
Section MapMore.
Context {V : Type}.
Implicit Types (k : jsstring) (v : V) (m : list (jsstring * V)).

Lemma get_is_Some k m : is_Some (Map.get k m) ↔ k ∈ m.*1.
Proof.
  rewrite <- not_eq_None_Some, MapFacts.get_None_keys.
  destruct (decide (k ∈ m.*1)); tauto.
Qed.

Lemma get_delete_ne k k' m :
  k ≠ k' → Map.get k' (Map.delete k m) = Map.get k' m.
Proof.
  intros Hne. induction m as [|[k0 v0] m IH]; [done|]. cbn [Map.delete].
  destruct (decide (k = k0)) as [->|Hk].
  - cbn [Map.get]. by rewrite decide_False by done.
  - cbn [Map.get]. by rewrite IH.
Qed.

Lemma get_delete_eq k m : NoDup m.*1 → Map.get k (Map.delete k m) = None.
Proof.
  induction m as [|[k0 v0] m IH]; [done|]. cbn [Map.delete].
  rewrite fmap_cons. intros [Hnotin Hnd]%NoDup_cons.
  destruct (decide (k = k0)) as [->|Hk].
  - by apply MapFacts.get_None_keys.
  - cbn [Map.get]. rewrite decide_False by done. by apply IH.
Qed.

Lemma keys_delete_subseteq k m : (Map.delete k m).*1 ⊆ m.*1.
Proof.
  induction m as [|[k0 v0] m IH]; [done|]. cbn [Map.delete].
  destruct (decide (k = k0)); rewrite !fmap_cons; intros x Hx.
  - by apply list_elem_of_further.
  - apply elem_of_cons in Hx as [->|Hx]; [apply list_elem_of_here|].
    apply list_elem_of_further. by apply IH.
Qed.

Lemma NoDup_keys_delete k m : NoDup m.*1 → NoDup (Map.delete k m).*1.
Proof.
  induction m as [|[k0 v0] m IH]; [done|]. cbn [Map.delete].
  rewrite fmap_cons. intros [Hnotin Hnd]%NoDup_cons.
  destruct (decide (k = k0)); [done|]. rewrite fmap_cons.
  apply NoDup_cons. split; [|by apply IH].
  intros Hin. apply Hnotin. by apply (keys_delete_subseteq k).
Qed.

(** Setting a key that is new and deleting it again gives the [Map]
    back, order and all. *)
Lemma delete_set_fresh k v m :
  Map.get k m = None → Map.delete k (Map.set k v m) = m.
Proof.
  induction m as [|[k0 v0] m IH]; cbn [Map.get Map.set Map.delete].
  - by rewrite decide_True.
  - destruct (decide (k = k0)); [done|]. intros H.
    cbn [Map.delete]. rewrite decide_False by done. by rewrite IH.
Qed.

Lemma values_set_fresh k v m :
  Map.get k m = None → Map.values (Map.set k v m) = Map.values m ++ [v].
Proof.
  unfold Map.values. induction m as [|[k0 v0] m IH]; cbn [Map.get Map.set].
  - done.
  - destruct (decide (k = k0)); [done|]. intros H.
    rewrite !fmap_cons, IH by done. done.
Qed.

Lemma length_set k v m :
  length (Map.set k v m)
  = if decide (k ∈ m.*1) then length m else S (length m).
Proof.
  rewrite <- (length_fmap fst (Map.set k v m)), MapFacts.keys_set.
  case_decide; rewrite ?length_app, !length_fmap; simpl; lia.
Qed.

End MapMore.
End MapMore.

(** ** The ids of the Ledger *)

Section Issued.
Implicit Types (qm : QuestionManager) (ops : list Op) (k : jsstring).

Lemma keys_step op qm k :
  k ∈ (questions (step op qm)).*1
  ↔ k ∈ (questions qm).*1 ∨ k ∈ issued [op].
Proof.
  destruct op as [env text|questionId r|questionId e]; simpl.
  - rewrite MapFacts.keys_set. unfold issued. simpl.
    rewrite list_elem_of_singleton. case_decide as Hin.
    + split; [by left | intros [?| ->]; done].
    + rewrite elem_of_app, list_elem_of_singleton. done.
  - assert (questions (notifyResponseComplete questionId r qm) = questions qm)
      as -> by (unfold notifyResponseComplete; by destruct (Map.get _ _)).
    split; [by left | intros [?|H]; [done | by apply elem_of_nil in H]].
  - assert (questions (notifyError questionId e qm) = questions qm)
      as -> by (unfold notifyError; by destruct (Map.get _ _)).
    split; [by left | intros [?|H]; [done | by apply elem_of_nil in H]].
Qed.

Lemma keys_run ops : ∀ qm k,
  k ∈ (questions (run ops qm)).*1 ↔ k ∈ (questions qm).*1 ∨ k ∈ issued ops.
Proof.
  induction ops as [|op ops IH]; intros qm k.
  - split; [by left | intros [?|H]; [done | by apply elem_of_nil in H]].
  - change (run (op :: ops) qm) with (run ops (step op qm)).
    rewrite IH, keys_step.
    change (op :: ops) with ([op] ++ ops).
    unfold issued at 3. rewrite omap_app, elem_of_app. fold (issued [op]).
    fold (issued ops). tauto.
Qed.

(** The ids under which a Ledger reached from a new one holds a
    question. *)
Lemma readAnswer_is_Some_issued ops k :
  is_Some (readAnswer k (run ops new_QuestionManager)) ↔ k ∈ issued ops.
Proof.
  set (qm := run ops new_QuestionManager).
  assert (is_Some (getAnswer k qm) ↔ k ∈ issued ops) as Hkeys.
  { unfold getAnswer. rewrite MapMore.get_is_Some. subst qm.
    rewrite keys_run. simpl.
    split; [intros [H|H]; [by apply elem_of_nil in H | done] | by right]. }
  rewrite <- Hkeys. unfold readAnswer.
  destruct (getAnswer k qm) as [question|] eqn:Hget; simpl.
  - destruct (well_formed_run ops) as (_ & Hin & _).
    split; [by eexists|]. intros _.
    apply lookup_lt_is_Some. by apply (Hin k).
  - split; by intros [? ?].
Qed.

(** X1.  After any sequence of operations on a new Ledger, [getAnswer]
    finds a question, whose object exists, under exactly the ids that the
    submits of the sequence generated: an id that was never issued gives
    null, and an id that was issued is never lost. *)
Theorem getAnswer_issued ops k :
  let qm := run ops new_QuestionManager in
  (is_Some (readAnswer k qm) ↔ k ∈ issued ops)
  ∧ (getAnswer k qm = None ↔ k ∉ issued ops).
Proof.
  intros qm.
  assert (is_Some (getAnswer k qm) ↔ k ∈ issued ops) as Hkeys.
  { unfold getAnswer. rewrite MapMore.get_is_Some. subst qm.
    rewrite keys_run. simpl.
    split; [intros [H|H]; [by apply elem_of_nil in H | done] | by right]. }
  split.
  - rewrite <- Hkeys. unfold readAnswer.
    destruct (getAnswer k qm) as [question|] eqn:Hget; simpl.
    + destruct (well_formed_run ops) as (_ & Hin & _).
      split; [by eexists|]. intros _.
      apply lookup_lt_is_Some. by apply (Hin k).
    + split; by intros [? ?].
  - rewrite <- Hkeys, eq_None_not_Some. done.
Qed.

(** X2.  In a Ledger reached by operations on a new one, a notification
    for one id leaves the question of every other id as it reads. *)
Theorem notification_frame ops questionId k r e :
  k ≠ questionId →
  let qm := run ops new_QuestionManager in
  readAnswer k (notifyResponseComplete questionId r qm) = readAnswer k qm
  ∧ readAnswer k (notifyError questionId e qm) = readAnswer k qm.
Proof.
  intros Hne qm. by apply readAnswer_notify_other; [apply well_formed_run|].
Qed.

Lemma notification_frame_witness :
  let (q2, ledger2) := submitQuestion env2 (js "And 3+3?") ledger1 in
  q2 ≠ q1
  ∧ readAnswer q2 (notifyResponseComplete q1 (js "4") ledger2)
    = readAnswer q2 ledger2
  ∧ readAnswer q2 (notifyError q1 (js "late") ledger2)
    = readAnswer q2 ledger2.
Proof.
  assert (generateQuestionId env2 ≠ q1) as Hne by (vm_compute; discriminate).
  split; [exact Hne|].
  exact (notification_frame
           [op_submit env1 (js "What is 2+2?"); op_submit env2 (js "And 3+3?")]
           q1 (generateQuestionId env2) (js "4") (js "late") Hne).
Defined.

(** X3.  A notification that repeats the one before it, for the same id
    and with the same text, changes nothing. *)
Theorem notification_repeated qm questionId r e :
  notifyResponseComplete questionId r (notifyResponseComplete questionId r qm)
  = notifyResponseComplete questionId r qm
  ∧ notifyError questionId e (notifyError questionId e qm)
    = notifyError questionId e qm.
Proof.
  unfold notifyResponseComplete, notifyError.
  destruct (Map.get questionId (questions qm)) as [question|] eqn:Hget.
  - simpl. rewrite Hget. split; f_equal;
      rewrite list_alter_alter_eq; by apply list_alter_ext.
  - by rewrite Hget.
Qed.

(** X4.  A submit changes nothing under the other ids.  When the id it
    generated was not in the Ledger, the new question is added after the
    ones [getAllQuestions] lists; when it was, the new question takes the
    place of the one that had the id, which [getAllQuestions] no longer
    lists. *)
Theorem submit_other_ids ops env text :
  let qm := run ops new_QuestionManager in
  let questionId := generateQuestionId env in
  let qm' := (submitQuestion env text qm).2 in
  (∀ k, k ≠ questionId → readAnswer k qm' = readAnswer k qm)
  ∧ (getAnswer questionId qm = None →
     getAllQuestions qm' = getAllQuestions qm ++ [length (objects qm)])
  ∧ (∀ old, getAnswer questionId qm = Some old →
            length (getAllQuestions qm') = length (getAllQuestions qm)
            ∧ (old ∉ getAllQuestions qm')
            ∧ deref qm' old = deref qm old).
Proof.
  intros qm questionId qm'.
  destruct (well_formed_run ops) as (Hnd & Hin & Hinj).
  fold qm in Hnd, Hin, Hinj.
  assert (well_formed qm') as (Hnd' & Hin' & Hinj').
  { apply well_formed_submit, well_formed_run. }
  split_and!.
  - intros k Hk. unfold readAnswer, getAnswer, qm'. simpl.
    rewrite MapFacts.get_set_ne by done.
    destruct (Map.get k (questions qm)) as [r|] eqn:Hget; [|done].
    simpl. unfold deref. simpl. apply lookup_app_l. by apply (Hin k).
  - intros Hnone. by apply MapMore.values_set_fresh.
  - intros old Hold. split_and!.
    + unfold getAllQuestions, Map.values, qm'. simpl.
      rewrite !length_fmap, MapMore.length_set.
      rewrite decide_True; [done|].
      apply MapMore.get_is_Some. by eexists.
    + intros [k Hk]%MapFacts.values_get; [|done].
      assert (getAnswer questionId qm' = Some (length (objects qm))) as Hnew.
      { apply MapFacts.get_set_eq. }
      destruct (decide (k = questionId)) as [->|Hk'].
      * unfold getAnswer in Hnew. rewrite Hnew in Hk.
        injection Hk as <-. apply Hin in Hold. lia.
      * unfold qm' in Hk. simpl in Hk.
        rewrite MapFacts.get_set_ne in Hk by done.
        apply Hk'. by apply (Hinj k questionId old).
    + unfold deref, qm'. simpl. apply lookup_app_l. by apply (Hin questionId).
Qed.

End Issued.

(** ** The ids [generateQuestionId] makes *)

Section Ids.

Lemma js_inj s1 s2 : js s1 = js s2 → s1 = s2.
Proof.
  unfold js. intros H.
  rewrite <- (string_of_list_ascii_of_string s1),
          <- (string_of_list_ascii_of_string s2).
  f_equal. revert H. generalize (list_ascii_of_string s1) as l1.
  generalize (list_ascii_of_string s2) as l2.
  intros l2 l1. revert l2.
  induction l1 as [|a l1 IH]; intros [|b l2] H; try done.
  rewrite !fmap_cons in H. injection H as Hab Hl. f_equal; [|by apply IH].
  rewrite <- (ascii_N_embedding a), <- (ascii_N_embedding b). by f_equal.
Qed.

Lemma js_String a s : js (String a s) = N_of_ascii a :: js s.
Proof. done. Qed.

Lemma pretty_N_char_digit x : is_digit (N_of_ascii (pretty_N_char x)) = true.
Proof. unfold pretty_N_char. by repeat case_match. Qed.

Lemma pretty_N_go_digits x : ∀ s,
  ∃ d, js (pretty_N_go x s) = d ++ js s ∧ forallb is_digit d = true.
Proof.
  induction (N.lt_wf_0 x) as [x _ IH]. intros s.
  destruct (decide (x = 0%N)) as [->|Hx].
  - exists []. by rewrite pretty_N_go_0.
  - rewrite pretty_N_go_step by lia.
    destruct (IH (x `div` 10)%N) with (s := String (pretty_N_char (x `mod` 10)) s)
      as (d & Hd & Hdigits).
    { apply N.div_lt; lia. }
    exists (d ++ [N_of_ascii (pretty_N_char (x `mod` 10))]). split.
    + by rewrite Hd, js_String, <- app_assoc.
    + rewrite forallb_app, Hdigits. simpl. by rewrite pretty_N_char_digit.
Qed.

(** The decimal numeral of a number has digits only. *)
Lemma pretty_N_digits (x : N) : forallb is_digit (js (pretty x)) = true.
Proof.
  unfold pretty, pretty_N. case_decide; [done|].
  destruct (pretty_N_go_digits x "") as (d & -> & Hd).
  change (js "") with (@nil N). by rewrite app_nil_r.
Qed.

(** Two texts that each are digits, an underscore and a rest are equal
    only part by part. *)
Lemma digits_underscore_inj (d1 d2 s1 s2 : jsstring) :
  forallb is_digit d1 = true → forallb is_digit d2 = true →
  d1 ++ 95%N :: s1 = d2 ++ 95%N :: s2 → d1 = d2 ∧ s1 = s2.
Proof.
  revert d2. induction d1 as [|c d1 IH]; intros [|c' d2] H1 H2 Heq;
    simpl in *.
  - by injection Heq as ->.
  - injection Heq as <- _. done.
  - injection Heq as -> _. done.
  - apply andb_prop in H1 as [_ H1]. apply andb_prop in H2 as [_ H2].
    injection Heq as -> Heq. destruct (IH d2 H1 H2 Heq) as [-> ->]. done.
Qed.

(** X5.  Two generated ids are equal exactly when the clock readings are
    equal and the random strings agree on the nine code units taken from
    them; every id starts with "q_" and carries at most nine code units
    after its second underscore. *)
Theorem generateQuestionId_collision env env' :
  (generateQuestionId env = generateQuestionId env'
   ↔ Date_now env = Date_now env'
     ∧ substr 2 9 (Math_random_36 env) = substr 2 9 (Math_random_36 env'))
  ∧ (∃ digits suffix,
        generateQuestionId env = js "q_" ++ digits ++ js "_" ++ suffix
        ∧ digits ≠ [] ∧ forallb is_digit digits = true
        ∧ suffix = take 9 (drop 2 (Math_random_36 env))
        ∧ length suffix ≤ 9).
Proof.
  split.
  - unfold generateQuestionId. split.
    + intros H. apply app_inv_head in H.
      apply digits_underscore_inj in H as [Hd Hs];
        [|apply pretty_N_digits..].
      split; [|done]. apply js_inj in Hd. by apply (inj pretty) in Hd.
    + by intros [-> ->].
  - exists (js (pretty (Date_now env))), (substr 2 9 (Math_random_36 env)).
    split_and!; [done| |apply pretty_N_digits|done|].
    + unfold pretty, pretty_N. case_decide as Hx; [done|].
      rewrite pretty_N_go_step by lia.
      destruct (pretty_N_go_digits (Date_now env `div` 10)
                  (String (pretty_N_char (Date_now env `mod` 10)) ""))
        as (d & -> & _).
      rewrite js_String. by destruct d.
    + unfold substr. rewrite length_take. lia.
Qed.

End Ids.

(** ** More on Front End A *)

Section FrontEndAMore.
Implicit Types (qm : QuestionManager) (ops : list Op) (k s : jsstring).

Lemma issued_not_empty ops k : k ∈ issued ops → k ≠ [].
Proof.
  unfold issued. intros (op & _ & Hop)%list_elem_of_omap.
  destruct op as [env text| |]; [|done..]. by injection Hop as <-.
Qed.

(** X6.  [GET /answer/:questionId] on a Ledger reached by operations on a
    new one answers 200 exactly for the ids that were issued, and then
    with the question as it reads now; 404 for every other id that is not
    empty; and 400 for the empty id alone. *)
Theorem get_answer_status ops k :
  let qm := run ops new_QuestionManager in
  (Http.statusCode (Http.get_answer k qm) = 200 ↔ k ∈ issued ops)
  ∧ (Http.statusCode (Http.get_answer k qm) = 404
     ↔ k ≠ [] ∧ k ∉ issued ops)
  ∧ (Http.statusCode (Http.get_answer k qm) = 400 ↔ k = [])
  ∧ (∀ q, k ∈ issued ops → readAnswer k qm = Some q →
          Http.get_answer k qm = Http.reply_answer q).
Proof.
  intros qm. pose proof (readAnswer_is_Some_issued ops k) as Hsome.
  fold qm in Hsome. unfold Http.get_answer.
  destruct (decide (k = [])) as [->|Hk]; simpl.
  - split_and!; try (split; [done|]).
    + by intros H%issued_not_empty.
    + by intros [? _].
    + done.
    + by intros q H%issued_not_empty.
  - destruct (readAnswer k qm) as [q|] eqn:Hread; simpl.
    + assert (k ∈ issued ops) by (apply Hsome; by eexists).
      split_and!; [done| |done|by intros ? _ [= <-]].
      split; [done | by intros [_ ?]].
    + assert (k ∉ issued ops) by (intros [? ?]%Hsome; done).
      split_and!; [done|done|done|done].
Qed.

(** X7.  When the submit handler throws, [POST /question] answers 500
    without the id, and the question it submitted stays in the Ledger; it
    is [thinking] when the handler did nothing to the Ledger. *)
Theorem post_question_handler_throws handler env s qm err :
  trim s ≠ [] →
  let questionId := (submitQuestion env (trim s) qm).1 in
  raised (handler (trim s) questionId) = Some err →
  let result := Http.post_question (Some handler) env (Http.JString s) qm in
  result.1 = Http.reply_error 500 "Internal server error"
  ∧ is_Some (getAnswer questionId result.2)
  ∧ (effects (handler (trim s) questionId) = [] →
     readAnswer questionId result.2
     = Some {| id := questionId; status := st_thinking; request := trim s;
               response := None; error := None; createdAt := new_Date env |}).
Proof.
  intros Htrim questionId Hraised result. subst result.
  rewrite post_question_accepts by done. cbv zeta. fold questionId.
  rewrite Hraised. simpl. split_and!; [done| |].
  - unfold getAnswer. apply MapMore.get_is_Some, keys_run. left.
    apply MapMore.get_is_Some. simpl. rewrite MapFacts.get_set_eq. by eexists.
  - intros ->. simpl. apply readAnswer_submitQuestion.
Qed.

Lemma post_question_handler_throws_witness :
  let result := Http.post_question (Some throws) env1
                  (Http.JString (js " What is 2+2? ")) new_QuestionManager in
  result.1 = Http.reply_error 500 "Internal server error"
  ∧ status <$> readAnswer q1 result.2 = Some st_thinking.
Proof.
  assert (trim (js " What is 2+2? ") ≠ []) as H by (vm_compute; discriminate).
  destruct (post_question_handler_throws throws env1 (js " What is 2+2? ")
              new_QuestionManager (js "Error: no TUI") H eq_refl)
    as (Hreply & _ & Hread).
  split; [exact Hreply|].
  eapply eq_trans; [apply (f_equal (fmap status)), Hread; reflexivity|].
  reflexivity.
Defined.

Lemma get_keys_values {V} (m : list (jsstring * V)) :
  NoDup m.*1 → (λ k, Map.get k m) <$> m.*1 = Some <$> m.*2.
Proof.
  induction m as [|[k0 v0] m IH]; [done|].
  rewrite !fmap_cons. intros [Hnotin Hnd]%NoDup_cons. simpl.
  rewrite decide_True by done. f_equal. rewrite <- IH by done.
  apply list_fmap_ext. intros i k Hk.
  rewrite decide_False; [done|]. intros ->. apply Hnotin.
  by apply list_elem_of_lookup_2 in Hk.
Qed.

(** X8.  [GET /debug/questions] on a Ledger reached by operations on a new
    one lists one question for each id that was issued, no id twice, and
    each question as [getAnswer] on its id reads it. *)
Theorem debug_questions_lists ops :
  let qm := run ops new_QuestionManager in
  ∃ ids qs,
    Http.debug_questions qm = Http.reply_questions qs
    ∧ NoDup ids ∧ (∀ k, k ∈ ids ↔ k ∈ issued ops)
    ∧ Some <$> qs = (λ k, readAnswer k qm) <$> ids.
Proof.
  intros qm. destruct (well_formed_run ops) as (Hnd & Hin & _).
  fold qm in Hnd, Hin.
  exists (questions qm).*1, (omap (deref qm) (getAllQuestions qm)).
  split_and!; [done|done| |].
  - intros k. subst qm. rewrite keys_run. simpl.
    split; [intros [H|H]; [by apply elem_of_nil in H | done] | by right].
  - unfold readAnswer, getAnswer, getAllQuestions, Map.values.
    assert ((λ k, Map.get k (questions qm) ≫= deref qm) <$> (questions qm).*1
            = (λ o, o ≫= deref qm)
                <$> ((λ k, Map.get k (questions qm)) <$> (questions qm).*1))
      as -> by exact (list_fmap_compose (λ k, Map.get k (questions qm))
                        (λ o, o ≫= deref qm) _).
    rewrite get_keys_values by done.
    assert (∀ refs : list nat,
               (∀ r, r ∈ refs → r < length (objects qm)) →
               Some <$> omap (deref qm) refs
               = (λ o, o ≫= deref qm) <$> (Some <$> refs)) as Hrefs.
    { induction refs as [|r refs IH]; intros Hlt; [done|].
      destruct (lookup_lt_is_Some_2 (objects qm) r) as [q Hq].
      { apply Hlt, list_elem_of_here. }
      assert (deref qm r = Some q) as Hd by exact Hq.
      rewrite !fmap_cons. cbn [omap list_omap mbind option_bind].
      rewrite Hd, fmap_cons. f_equal.
      apply IH. intros r' Hr'. apply Hlt. by apply list_elem_of_further. }
    apply Hrefs. intros r [k Hk]%MapFacts.values_get; [|done].
    by apply (Hin k).
Qed.

(** What [trim] gives neither starts nor ends with white space. *)
Lemma trim_ends s c :
  (head (trim s) = Some c → isWhiteSpace c = false)
  ∧ (last (trim s) = Some c → isWhiteSpace c = false).
Proof.
  unfold trim, trimEnd. split.
  - destruct (trimStart_split (reverse (trimStart s))) as (ws & Hr & Hws).
    apply (f_equal reverse) in Hr.
    rewrite reverse_involutive, reverse_app in Hr.
    destruct (trimStart s) as [|c0 t] eqn:Hs; [done|].
    apply trimStart_head in Hs.
    destruct (reverse (trimStart (reverse (c0 :: t)))) as [|c1 t1]; [done|].
    simpl in Hr. injection Hr as <- _. by intros [= <-].
  - rewrite last_reverse.
    destruct (trimStart (reverse (trimStart s))) as [|c0 t] eqn:Hs; [done|].
    apply trimStart_head in Hs. by intros [= <-].
Qed.

(** X9.  The text that [POST /question] stores as the request of a new
    question, and hands to the submit handler, is the posted text without
    the white space around it: it is not empty, it neither starts nor
    ends with white space, and the posted text is that text between two
    runs of white space. *)
Theorem post_question_stores_trimmed env s qm :
  forallb isWhiteSpace s = false →
  let questionId := (submitQuestion env (trim s) qm).1 in
  let qm1 := (Http.post_question None env (Http.JString s) qm).2 in
  ∃ text before after,
    request <$> readAnswer questionId qm1 = Some text
    ∧ text ≠ []
    ∧ (∀ c, head text = Some c ∨ last text = Some c → isWhiteSpace c = false)
    ∧ s = before ++ text ++ after
    ∧ forallb isWhiteSpace before = true ∧ forallb isWhiteSpace after = true
    ∧ ∀ handler,
        (Http.post_question (Some handler) env (Http.JString s) qm).2
        = run (effects (handler text questionId))
              (submitQuestion env text qm).2.
Proof.
  intros Hs questionId qm1.
  assert (trim s ≠ []) as Htrim by (intros H%trim_nil; congruence).
  destruct (trim_split s) as (before & after & Hsplit & Hb & Ha).
  exists (trim s), before, after. split_and!; [|done| |done..|].
  - assert (qm1 = (submitQuestion env (trim s) qm).2) as ->.
    { subst qm1. by rewrite post_question_accepts by done. }
    subst questionId. by rewrite readAnswer_submitQuestion.
  - intros c [H|H];
      [by apply (proj1 (trim_ends s c)) | by apply (proj2 (trim_ends s c))].
  - intros handler. by rewrite post_question_accepts by done.
Qed.

Lemma post_question_stores_trimmed_witness :
  ∃ text before after,
    request <$> readAnswer q1
      (Http.post_question None env1 (Http.JString (js " What is 2+2? "))
                          new_QuestionManager).2
    = Some text
    ∧ text ≠ []
    ∧ (∀ c, head text = Some c ∨ last text = Some c → isWhiteSpace c = false)
    ∧ js " What is 2+2? " = before ++ text ++ after
    ∧ forallb isWhiteSpace before = true ∧ forallb isWhiteSpace after = true.
Proof.
  destruct (post_question_stores_trimmed env1 (js " What is 2+2? ")
              new_QuestionManager eq_refl)
    as (text & before & after & H1 & H2 & H3 & H4 & H5 & H6 & _).
  exists text, before, after. split_and!; try done.
Defined.

End FrontEndAMore.

(** ** More on [ask] *)

Section AskMore.
Import Mcp.
Implicit Types (qm : QuestionManager) (sched : nat → list Op).

(** The Ledger after [k] sleeps is the Ledger after the operations of
    those sleeps, in order. *)
Lemma ledger_from_run sched k : ∀ start qm,
  ledger_from sched start k qm
  = run (concat (sched <$> seq start k)) qm.
Proof.
  induction k as [|k IH]; intros start qm; [done|].
  simpl. by rewrite IH, run_app.
Qed.

(** Every way the loop ends: after [k] sleeps, all of them on a question
    that was not found terminal, at a call that finds it terminal or,
    with no calls left, at the timeout; the Ledger is the one the sleeps
    left. *)
Lemma poll_outcome stream questionId sched left : ∀ retries qm,
  ∃ k, k ≤ left
    ∧ (poll stream questionId sched left retries qm).1.2 = retries + k
    ∧ (poll stream questionId sched left retries qm).2
      = ledger_from sched retries k qm
    ∧ (∀ j, j < k →
         ∀ q, readAnswer questionId (ledger_from sched retries j qm) = Some q →
              status q = st_thinking)
    ∧ ((k < left
        ∧ poll_exit stream questionId (retries + k)
            (readAnswer questionId (ledger_from sched retries k qm))
          = Some (poll stream questionId sched left retries qm).1.1)
       ∨ (k = left
          ∧ (poll stream questionId sched left retries qm).1.1
            = Thrown (js "TUI response timeout after 8 minutes"))).
Proof.
  induction left as [|left IH]; intros retries qm.
  - exists 0. simpl. split_and!; [lia|lia|done| |by right].
    intros j Hj. lia.
  - simpl.
    destruct (poll_exit stream questionId retries (readAnswer questionId qm))
      as [r|] eqn:Hexit.
    + exists 0. simpl. split_and!; [lia|lia|done| |].
      * intros j Hj. lia.
      * left. split; [lia|]. by rewrite Nat.add_0_r.
    + destruct (IH (S retries) (run (sched retries) qm))
        as (k & Hk & Hretries & Hledger & Hwait & Hend).
      exists (S k). simpl. split_and!; [lia|lia|done| |].
      * intros [|j] Hj; simpl.
        -- by apply poll_exit_None with stream questionId retries.
        -- apply Hwait. lia.
      * replace (retries + S k) with (S retries + k) by lia.
        destruct Hend as [[? ?]|[? ?]]; [left|right]; split; try done; lia.
Qed.

(** X10.  Every outcome of [ask] after a handler that returned: there is
    a number [k] of sleeps, at most 240, such that no call of [getAnswer]
    before the [k]-th found the question terminal, the Ledger is the one
    those sleeps left (the loop itself changes nothing), and either
    [k < 240] and the [k]-th call found the question [finished], the
    result being the payload for it, or [error], the result being the
    failure for it; or [k = 240] and the result is the timeout.  So a
    success payload is returned only for a question read [finished]. *)
Theorem ask_outcome handler env text stream sched qm :
  let questionId := (submitQuestion env text qm).1 in
  let qm2 := run (effects (handler text questionId))
                 (submitQuestion env text qm).2 in
  let seen k := readAnswer questionId (ledger_at sched k qm2) in
  let result := ask (Some handler) env text stream sched qm in
  raised (handler text questionId) = None →
  ∃ k, k ≤ maxRetries
    ∧ result.1.2 = k ∧ result.2 = ledger_at sched k qm2
    ∧ (∀ j q, j < k → seen j = Some q → status q = st_thinking)
    ∧ ((k < maxRetries
        ∧ ∃ q, seen k = Some q
               ∧ ((status q = st_finished
                   ∧ result.1.1
                     = Content (success_text stream questionId q k))
                  ∨ (status q = st_error
                     ∧ result.1.1
                       = Thrown (or_else (error q)
                                         (js "TUI processing failed")))))
       ∨ (k = maxRetries
          ∧ result.1.1 = Thrown (js "TUI response timeout after 8 minutes"))).
Proof.
  intros questionId qm2 seen result Hraised.
  assert (result = poll stream questionId sched maxRetries 0 qm2) as ->.
  { subst result. rewrite ask_with_handler. cbv zeta.
    unfold questionId in Hraised. by rewrite Hraised. }
  destruct (poll_outcome stream questionId sched maxRetries 0 qm2)
    as (k & Hk & Hretries & Hledger & Hwait & Hend).
  set (res := poll stream questionId sched maxRetries 0 qm2) in *.
  exists k. split_and!; [done|done|done| |].
  - intros j q Hj. by apply Hwait.
  - destruct Hend as [[Hlt Hexit]|[-> Htimeout]]; [left|by right].
    split; [done|]. change (0 + k) with k in Hexit.
    change (ledger_from sched 0 k qm2) with (ledger_at sched k qm2) in Hexit.
    fold (seen k) in Hexit. destruct (seen k) as [q|] eqn:Hseen; [|done].
    exists q. split; [done|]. destruct (status q) eqn:Hst.
    + assert (poll_exit stream questionId k (Some q) = None) as Hnone.
      { apply poll_exit_None. by intros ? [= <-]. }
      congruence.
    + right. split; [done|].
      rewrite poll_exit_error in Hexit by done. by injection Hexit as <-.
    + left. split; [done|].
      rewrite poll_exit_finished in Hexit by done. by injection Hexit as <-.
Qed.

Lemma ask_outcome_witness :
  ∃ k, k ≤ 240
    ∧ (ask (Some forwards) env1 (js "What is 2+2?") true
           (answers_at 2 q1 (js "4")) new_QuestionManager).1.2 = k
    ∧ (ask (Some forwards) env1 (js "What is 2+2?") true
           (answers_at 2 q1 (js "4")) new_QuestionManager).2
      = ledger_at (answers_at 2 q1 (js "4")) k ledger1.
Proof.
  destruct (ask_outcome forwards env1 (js "What is 2+2?") true
              (answers_at 2 q1 (js "4")) new_QuestionManager eq_refl)
    as (k & Hk & Hretries & Hledger & _).
  exists k. split_and!; [exact Hk | exact Hretries | exact Hledger].
Defined.

(** X11.  What a tool call does to the Ledger.  With no arguments, or for
    a tool other than "ask", it throws and the Ledger is as it was.  For
    "ask" the Ledger afterwards is the one after the submit, what the
    handler did and the sleeps of the loop, at most 240 of them, and
    nothing else; there is no sleep at all when no handler is set or the
    handler threw. *)
Theorem callTool_footprint onSubmitQuestion env name args sched qm :
  let result := callTool onSubmitQuestion env name args sched qm in
  (args = None ∨ name ≠ js "ask" →
   (∃ message, result.1.1 = Thrown message) ∧ result.1.2 = 0 ∧ result.2 = qm)
  ∧ (∀ a, args = Some a → name = js "ask" →
       let questionId := (submitQuestion env (text a) qm).1 in
       let d := from_option (λ handler, handler (text a) questionId)
                            {| effects := []; raised := None |}
                            onSubmitQuestion in
       let qm2 := run (effects d) (submitQuestion env (text a) qm).2 in
       ∃ k, k ≤ maxRetries ∧ result.1.2 = k
            ∧ result.2 = ledger_at sched k qm2
            ∧ (onSubmitQuestion = None ∨ is_Some (raised d) → k = 0)).
Proof.
  intros result. split.
  - subst result. unfold callTool. intros [->|Hname].
    + split; [by eexists|done].
    + destruct args as [a|]; [|split; [by eexists|done]].
      rewrite decide_False by done. split; [by eexists|done].
  - intros a -> -> questionId d qm2. subst result. unfold callTool.
    rewrite decide_True by done.
    destruct onSubmitQuestion as [handler|].
    + rewrite ask_with_handler. cbv zeta. fold questionId. simpl in d.
      fold d. fold qm2. destruct (raised d) as [err|] eqn:Hraised.
      * exists 0. split_and!; [unfold maxRetries; lia|done..].
      * destruct (poll_outcome (default true (stream a)) questionId sched
                    maxRetries 0 qm2)
          as (k & Hk & Hretries & Hledger & _).
        exists k. split_and!; [done|done|done|].
        intros [?|[? ?]]; done.
    + exists 0. split_and!; [unfold maxRetries; lia|done..].
Qed.

(** X12.  A question that [ask] submitted is not lost, whatever [ask]
    returns, the timeout included: on a Ledger reached by operations on a
    new one, the Ledger that [ask] leaves holds a question under the id,
    and a resolve that comes late is recorded on it. *)
Theorem ask_then_late_resolve ops onSubmitQuestion env text stream sched r :
  let qm := run ops new_QuestionManager in
  let questionId := generateQuestionId env in
  let result := ask onSubmitQuestion env text stream sched qm in
  ∃ q, readAnswer questionId result.2 = Some q
       ∧ readAnswer questionId (notifyResponseComplete questionId r result.2)
         = Some {| id := id q; status := st_finished; request := request q;
                   response := Some r; error := error q;
                   createdAt := createdAt q |}.
Proof.
  intros qm questionId result.
  assert (∃ ops', result.2 = run (ops ++ op_submit env text :: ops')
                                 new_QuestionManager) as [ops' Hops].
  { assert (∀ more, run more (submitQuestion env text qm).2
                    = run (ops ++ op_submit env text :: more)
                          new_QuestionManager) as Hmore.
    { intros more. by rewrite run_app. }
    subst result. destruct onSubmitQuestion as [handler|].
    - rewrite ask_with_handler. cbv zeta.
      destruct (raised _).
      + eexists. apply Hmore.
      + destruct (poll_outcome stream (submitQuestion env text qm).1 sched
                    maxRetries 0
                    (run (effects (handler text (submitQuestion env text qm).1))
                         (submitQuestion env text qm).2))
          as (k & _ & _ & -> & _).
        rewrite ledger_from_run, <- run_app. eexists. apply Hmore.
    - exists []. apply (Hmore []). }
  pose proof (readAnswer_is_Some_issued (ops ++ op_submit env text :: ops')
                questionId) as Hsome.
  rewrite <- Hops in Hsome.
  destruct Hsome as [_ [q Hq]].
  { unfold issued. rewrite omap_app, elem_of_app. right. apply list_elem_of_here. }
  exists q. split; [done|].
  by rewrite readAnswer_notifyResponseComplete, Hq.
Qed.

End AskMore.

(** ** The [stream] argument *)

Section Stream.
Import Mcp.

(** Two outcomes that differ in the stream indicator at most. *)
Lemma poll_exit_stream questionId retries question :
  match poll_exit true questionId retries question,
        poll_exit false questionId retries question with
  | None, None => True
  | Some (Thrown m), Some (Thrown m') => m = m'
  | Some (Content t), Some (Content t') =>
      t !! 1 = Some (Lit "[STREAMED]")
      ∧ t' = <[1 := Lit "[NON-STREAMED]"]> t
  | _, _ => False
  end.
Proof.
  unfold poll_exit. destruct question as [q|]; [|done].
  case_bool_decide; [|done]. by case_bool_decide.
Qed.

Lemma poll_stream questionId sched left : ∀ retries qm,
  let a := poll true questionId sched left retries qm in
  let b := poll false questionId sched left retries qm in
  a.2 = b.2 ∧ a.1.2 = b.1.2
  ∧ match a.1.1, b.1.1 with
    | Thrown m, Thrown m' => m = m'
    | Content t, Content t' =>
        t !! 1 = Some (Lit "[STREAMED]")
        ∧ t' = <[1 := Lit "[NON-STREAMED]"]> t
    | _, _ => False
    end.
Proof.
  induction left as [|left IH]; intros retries qm; [done|]. simpl.
  pose proof (poll_exit_stream questionId retries (readAnswer questionId qm))
    as H.
  destruct (poll_exit true _ _ _) as [[t|m]|];
    destruct (poll_exit false _ _ _) as [[t'|m']|]; try done; apply IH.
Qed.

(** X13.  The [stream] argument changes one thing: the indicator in the
    success payload.  With [stream] true or false, [ask] sleeps as many
    times, leaves the same Ledger, and fails with the same message or
    succeeds with payloads that differ in the indicator alone. *)
Theorem stream_only_labels onSubmitQuestion env text sched qm :
  let a := ask onSubmitQuestion env text true sched qm in
  let b := ask onSubmitQuestion env text false sched qm in
  a.2 = b.2 ∧ a.1.2 = b.1.2
  ∧ match a.1.1, b.1.1 with
    | Thrown m, Thrown m' => m = m'
    | Content t, Content t' =>
        t !! 1 = Some (Lit "[STREAMED]")
        ∧ t' = <[1 := Lit "[NON-STREAMED]"]> t
    | _, _ => False
    end.
Proof.
  intros a b. subst a b. destruct onSubmitQuestion as [handler|]; [|done].
  rewrite !ask_with_handler. cbv zeta. destruct (raised _); [done|].
  apply poll_stream.
Qed.

End Stream.

(** ** More on the Session Table *)

Section Sessions.
Import Mcp.
Implicit Types (transports : gmap jsstring Transport) (sid : jsstring).
Implicit Types (does : Handling).

Lemma transports_get_own transports sid t :
  transports !! sid = Some t → transports_get transports sid = own t.
Proof. unfold transports_get. by intros ->. Qed.

Lemma transports_get_undefined transports sid :
  transports !! sid = None → sid ∉ Object_prototype →
  transports_get transports sid = undefined.
Proof.
  unfold transports_get. intros -> ?. by rewrite bool_decide_false.
Qed.

Lemma header_truthy_Some sid : sid ≠ [] → header_truthy (Some sid) = true.
Proof. by destruct sid. Qed.

(** [onclose] of a transport that is in the table under its own id
    deletes that entry. *)
Lemma onclose_own transports sid t :
  transports !! sid = Some t → sid ≠ [] →
  onclose {| sessionId := Some sid |} transports = delete sid transports.
Proof.
  intros Hsid Hne. unfold onclose. cbn [sessionId].
  rewrite header_truthy_Some by done.
  by rewrite (transports_get_own _ _ t).
Qed.

Lemma onclose_subseteq t transports : onclose t transports ⊆ transports.
Proof.
  unfold onclose. destruct (sessionId t) as [sid|]; [|done].
  destruct (_ && _); [apply delete_subseteq | done].
Qed.

(** [onclose] does nothing else than delete the entry under the id of
    its transport, if it does anything. *)
Lemma onclose_cases sid transports :
  onclose {| sessionId := Some sid |} transports = transports
  ∨ onclose {| sessionId := Some sid |} transports = delete sid transports.
Proof.
  unfold onclose. cbn [sessionId]. destruct (_ && _); [by right | by left].
Qed.

(** A transport that calls no handler leaves the table; one that reports
    its id stores itself under it; one that closes runs [onclose]. *)
Lemma handleRequest_nil does t transports :
  calls does = [] → handleRequest does t transports = transports.
Proof. unfold handleRequest. by intros ->. Qed.

Lemma handleRequest_initialized does t transports sid :
  calls does = [sessioninitialized sid] →
  handleRequest does t transports
  = <[sid := {| sessionId := Some sid |}]> transports.
Proof. unfold handleRequest. by intros ->. Qed.

Lemma handleRequest_closed does t transports :
  calls does = [closed] → handleRequest does t transports = onclose t transports.
Proof. unfold handleRequest. by intros ->. Qed.

(** A transport that only closes, once or more, on a table that holds it
    under its id. *)
Lemma handleRequest_closes does sid transports :
  (∀ c, c ∈ calls does → c = closed) → calls does ≠ [] →
  is_Some (transports !! sid) → sid ≠ [] →
  handleRequest does {| sessionId := Some sid |} transports
  = delete sid transports.
Proof.
  unfold handleRequest. intros Hclosed Hne [t Ht] Hsid.
  destruct (calls does) as [|c cs]; [done|]. clear Hne.
  assert (c = closed) as -> by (apply Hclosed, list_elem_of_here).
  simpl. rewrite (onclose_own _ _ t) by done.
  assert (∀ c', c' ∈ cs → c' = closed) as Hcs.
  { intros c' Hc'. by apply Hclosed, list_elem_of_further. }
  clear Hclosed Ht. induction cs as [|c' cs IH]; [done|].
  assert (c' = closed) as -> by (apply Hcs, list_elem_of_here).
  simpl.
  destruct (onclose_cases sid (delete sid transports)) as [->| ->].
  - apply IH. intros c Hc. by apply Hcs, list_elem_of_further.
  - rewrite delete_delete_eq. apply IH.
    intros c Hc. by apply Hcs, list_elem_of_further.
Qed.

Lemma keyed_callback c t transports :
  keyed transports → keyed (callback c (t, transports)).2.
Proof.
  intros Hkeyed. destruct c as [sid|]; simpl.
  - intros k t'. rewrite lookup_insert.
    case_decide as Hk; [subst k; by intros [= <-] | apply Hkeyed].
  - intros k t' Hk. apply Hkeyed.
    by apply (lookup_weaken _ _ _ _ Hk), onclose_subseteq.
Qed.

Lemma keyed_handleRequest does t transports :
  keyed transports → keyed (handleRequest does t transports).
Proof.
  unfold handleRequest. generalize (calls does) as cs. intros cs.
  revert t transports. induction cs as [|c cs IH]; intros t transports Hk;
    [done|].
  simpl. destruct (callback c (t, transports)) as [t' transports'] eqn:Hc.
  apply IH. change transports' with (t', transports').2. rewrite <- Hc.
  by apply keyed_callback.
Qed.

(** The table after a route is the one before, or the one the transport
    that was reached made of it. *)
Lemma route_table does h isInitialize transports :
  let reached t :=
    transports !! default [] h = Some t ∧ header_truthy h = true in
  ((post_mcp does h isInitialize transports).2 = transports
   ∨ (∃ t, (reached t
            ∨ (t = {| sessionId := None |} ∧ header_truthy h = false
               ∧ isInitialize = true))
           ∧ (post_mcp does h isInitialize transports).2
             = handleRequest does t transports))
  ∧ ((get_mcp does h transports).2 = transports
     ∨ (∃ t, reached t
             ∧ (get_mcp does h transports).2
               = handleRequest does t transports))
  ∧ ((delete_mcp does h transports).2 = transports
     ∨ (∃ t, reached t
             ∧ (delete_mcp does h transports).2
               = handleRequest does t transports)).
Proof.
  intros reached. unfold post_mcp, get_mcp, delete_mcp, reached. cbv zeta.
  generalize (default [] h) as sid. intros sid. unfold transports_get.
  destruct (header_truthy h) eqn:Hh; simpl.
  - destruct (transports !! sid) as [t|] eqn:Hsid; simpl.
    + split_and!; right; exists t; by split; [try left|].
    + case_bool_decide; simpl; by split_and!; left.
  - split_and!; [|by left..].
    destruct isInitialize; [|by left].
    right. eexists. split; [right|]; done.
Qed.

Lemma keyed_serve r transports : keyed transports → keyed (serve r transports).2.
Proof.
  intros Hkeyed.
  destruct r as [does h isInitialize|does h|does h]; simpl.
  - destruct (route_table does h isInitialize transports)
      as ([->|(t & _ & ->)] & _ & _); [done | by apply keyed_handleRequest].
  - destruct (route_table does h true transports)
      as (_ & [->|(t & _ & ->)] & _); [done | by apply keyed_handleRequest].
  - destruct (route_table does h true transports)
      as (_ & _ & [->|(t & _ & ->)]); [done | by apply keyed_handleRequest].
Qed.

Lemma keyed_serve_all rs : ∀ transports,
  keyed transports → keyed (serve_all rs transports).
Proof.
  induction rs as [|r rs IH]; intros transports Hkeyed; [done|].
  apply IH. by apply keyed_serve.
Qed.

(** X14.  The life of a session, as far as the service decides it.  An
    initialize request without a session id is handed to a new transport:
    when that transport accepts it and reports the id it took, the session
    is stored under that id, and when it calls no handler, nothing is.
    Requests under the id of a stored session go to its transport, and the
    table stays as it is as long as the transport calls no handler; so a
    termination request that the transport refuses keeps the session.  When
    the transport closes on a termination request, the entry is removed,
    and from then on every request under the id gets the 400 reply and
    changes nothing.  This for an id that is not empty and not the name of
    a property of [Object.prototype]. *)
Theorem session_lifecycle transports uuid code :
  uuid ≠ [] → uuid ∉ Object_prototype →
  let t := {| sessionId := Some uuid |} in
  let opened := <[uuid := t]> transports in
  let gone := delete uuid transports in
  (∀ does, calls does = [sessioninitialized uuid] → wrote does = Some code →
     post_mcp does None true transports
     = (handled {| sessionId := None |} code, opened))
  ∧ (∀ does, calls does = [] →
       (post_mcp does None true transports).2 = transports)
  ∧ (∀ does isInitialize, calls does = [] → wrote does = Some code →
       post_mcp does (Some uuid) isInitialize opened = (handled t code, opened)
       ∧ get_mcp does (Some uuid) opened = (handled t code, opened)
       ∧ delete_mcp does (Some uuid) opened = (handled t code, opened))
  ∧ (∀ does, calls does = [closed] → wrote does = Some code →
       delete_mcp does (Some uuid) opened = (handled t code, gone))
  ∧ (∀ does isInitialize,
       post_mcp does (Some uuid) isInitialize gone
       = (jsonrpc_error 400 (-32000)
            "Bad Request: No valid session ID provided", gone)
       ∧ get_mcp does (Some uuid) gone
         = (plain 400 "Invalid or missing session ID", gone)
       ∧ delete_mcp does (Some uuid) gone
         = (plain 400 "Invalid or missing session ID", gone)).
Proof.
  intros Hne Hproto t opened gone.
  assert (opened !! uuid = Some t) as Hopened by apply lookup_insert_eq.
  assert (gone !! uuid = None) as Hgone by apply lookup_delete_eq.
  split_and!.
  - intros does Hcalls Hwrote. unfold post_mcp. simpl. rewrite Hwrote.
    by rewrite (handleRequest_initialized _ _ _ uuid).
  - intros does Hcalls. unfold post_mcp. simpl.
    by apply handleRequest_nil.
  - intros does isInitialize Hcalls Hwrote.
    destruct (live_session_routed does opened uuid t isInitialize code)
      as (-> & -> & ->); [done..|].
    by rewrite handleRequest_nil.
  - intros does Hcalls Hwrote.
    destruct (live_session_routed does opened uuid t true code)
      as (_ & _ & ->); [done..|].
    rewrite handleRequest_closed by done. subst t opened gone.
    rewrite (onclose_own _ _ _ Hopened) by done.
    by rewrite delete_insert_eq.
  - intros does isInitialize.
    by apply absent_session_rejected.
Qed.

Lemma session_lifecycle_witness :
  post_mcp (accepts uuid1) None true ∅
  = (handled {| sessionId := None |} 200,
     {[ uuid1 := {| sessionId := Some uuid1 |} ]})
  ∧ (post_mcp (refuses 406) None true ∅).2 = ∅
  ∧ delete_mcp (refuses 400) (Some uuid1)
      {[ uuid1 := {| sessionId := Some uuid1 |} ]}
    = (handled {| sessionId := Some uuid1 |} 400,
       {[ uuid1 := {| sessionId := Some uuid1 |} ]})
  ∧ (delete_mcp closes (Some uuid1)
       {[ uuid1 := {| sessionId := Some uuid1 |} ]}).2 = delete uuid1 ∅
  ∧ get_mcp (refuses 200) (Some uuid1) (delete uuid1 ∅)
    = (plain 400 "Invalid or missing session ID", delete uuid1 ∅).
Proof.
  assert (uuid1 ≠ []) as Hne by (vm_compute; discriminate).
  assert (uuid1 ∉ Object_prototype) as Hproto.
  { intros H. vm_compute in H.
    repeat (apply elem_of_cons in H as [H|H]; [discriminate H|]).
    by apply elem_of_nil in H. }
  destruct (session_lifecycle ∅ uuid1 200 Hne Hproto)
    as (Hopen & Hrefused & _ & Hclose & Hgone).
  destruct (session_lifecycle ∅ uuid1 400 Hne Hproto)
    as (_ & _ & Hkept & _ & _).
  split_and!.
  - by apply Hopen.
  - by apply Hrefused.
  - by apply (Hkept (refuses 400) true).
  - exact (f_equal snd (Hclose closes eq_refl eq_refl)).
  - by apply (Hgone (refuses 200) true).
Defined.

(** X15.  In a table reached by requests from the empty one, a
    termination request under the id of a live session, whose transport
    closes (once or more) or calls no handler, leaves the entry of every
    other live session: requests under the other id go to its transport as
    before.  When the transport closes, the entry of the session that was
    addressed is removed and no other; when it calls no handler, none. *)
Theorem sessions_are_isolated rs does sid1 sid2 t1 t2 :
  let transports := serve_all rs ∅ in
  transports !! sid1 = Some t1 → sid1 ≠ [] →
  transports !! sid2 = Some t2 → sid2 ≠ [] → sid1 ≠ sid2 →
  (∀ c, c ∈ calls does → c = closed) →
  let after := (delete_mcp does (Some sid1) transports).2 in
  after = (if decide (calls does = []) then transports
           else delete sid1 transports)
  ∧ after !! sid2 = Some t2
  ∧ (∀ does' isInitialize code,
        wrote does' = Some code →
        (get_mcp does' (Some sid2) after).1 = handled t2 code
        ∧ (post_mcp does' (Some sid2) isInitialize after).1
          = handled t2 code).
Proof.
  intros transports H1 Hne1 H2 Hne2 Hne Hclosed after.
  assert (keyed transports) as Hkeyed.
  { apply keyed_serve_all. intros k t H. by rewrite lookup_empty in H. }
  assert (after = handleRequest does t1 transports) as Hafter.
  { subst after. unfold delete_mcp. cbv zeta.
    change (default [] (Some sid1)) with sid1.
    by rewrite header_truthy_Some, (transports_get_own _ _ t1) by done. }
  assert (after = (if decide (calls does = []) then transports
                   else delete sid1 transports)) as Htable.
  { rewrite Hafter. case_decide as Hcalls; [by apply handleRequest_nil|].
    destruct t1 as [s]. pose proof (Hkeyed _ _ H1) as Hs. simpl in Hs.
    subst s. by apply handleRequest_closes. }
  assert (after !! sid2 = Some t2) as Hlive.
  { rewrite Htable. case_decide; [done|]. by rewrite lookup_delete_ne. }
  split_and!; [done|done|].
  intros does' isInitialize code Hwrote.
  by destruct (live_session_routed does' after sid2 t2 isInitialize code)
    as (-> & -> & _).
Qed.

Lemma sessions_are_isolated_witness :
  two_sessions !! uuid1 = Some {| sessionId := Some uuid1 |}
  ∧ two_sessions !! uuid2 = Some {| sessionId := Some uuid2 |}
  ∧ (delete_mcp closes (Some uuid1) two_sessions).2 = delete uuid1 two_sessions
  ∧ (get_mcp (refuses 200) (Some uuid2)
       (delete_mcp closes (Some uuid1) two_sessions).2).1
    = handled {| sessionId := Some uuid2 |} 200.
Proof.
  assert (uuid1 ≠ uuid2) as Hne by (vm_compute; discriminate).
  assert (two_sessions !! uuid1 = Some {| sessionId := Some uuid1 |}) as H1.
  { unfold two_sessions, serve_all. simpl. unfold post_mcp, handleRequest.
    simpl. rewrite lookup_insert_ne by done. apply lookup_insert_eq. }
  assert (two_sessions !! uuid2 = Some {| sessionId := Some uuid2 |}) as H2.
  { unfold two_sessions, serve_all. simpl. unfold post_mcp, handleRequest.
    simpl. apply lookup_insert_eq. }
  split_and!; [exact H1 | exact H2 | |].
  - refine (proj1 (sessions_are_isolated
              [POST (accepts uuid1) None true; POST (accepts uuid2) None true]
              closes uuid1 uuid2 _ _ H1 _ H2 _ Hne _)).
    + vm_compute; discriminate.
    + vm_compute; discriminate.
    + intros c [->|H]%elem_of_cons; [done | by apply elem_of_nil in H].
  - refine (proj1 (proj2 (proj2 (sessions_are_isolated
              [POST (accepts uuid1) None true; POST (accepts uuid2) None true]
              closes uuid1 uuid2 _ _ H1 _ H2 _ Hne _))
              (refuses 200) true 200 eq_refl)).
    + vm_compute; discriminate.
    + vm_compute; discriminate.
    + intros c [->|H]%elem_of_cons; [done | by apply elem_of_nil in H].
Defined.

(** X16.  What a request does to the Session Table, and the replies to
    requests that name no live session.  The service changes the table
    only through the handlers that a transport calls: after a request the
    table is the one before, or the one that the transport the request
    reached (the transport of the live session the header names, or the new
    transport of an initialize [POST] without a session id) made of it by
    its calls; a transport that calls no handler leaves the table.
    Without a session id, a [POST] that is not an initialize request, a
    [GET] and a [DELETE] get the 400 reply and reach no transport; and so
    does an initialize [POST] that carries an id of no session, when the
    id is not empty and not the name of a property of
    [Object.prototype]. *)
Theorem serve_footprint r transports :
  ((serve r transports).2 = transports
   ∨ (∃ does h t,
         (r = POST does h true ∧ header_truthy h = false
          ∧ t = {| sessionId := None |}
          ∨ (r = POST does h true ∨ r = POST does h false
             ∨ r = GET does h ∨ r = DELETE does h)
            ∧ header_truthy h = true ∧ transports !! default [] h = Some t)
         ∧ calls does ≠ []
         ∧ (serve r transports).2 = handleRequest does t transports))
  ∧ (∀ does h,
        header_truthy h = false →
        serve (POST does h false) transports
        = (jsonrpc_error 400 (-32000)
             "Bad Request: No valid session ID provided", transports)
        ∧ serve (GET does h) transports
          = (plain 400 "Invalid or missing session ID", transports)
        ∧ serve (DELETE does h) transports
          = (plain 400 "Invalid or missing session ID", transports))
  ∧ (∀ does sid,
        sid ≠ [] → transports !! sid = None → sid ∉ Object_prototype →
        serve (POST does (Some sid) true) transports
        = (jsonrpc_error 400 (-32000)
             "Bad Request: No valid session ID provided", transports)).
Proof.
  split_and!.
  - destruct r as [does h isInitialize|does h|does h]; simpl.
    + destruct (route_table does h isInitialize transports)
        as ([Hsame|(t & Hreached & Htable)] & _ & _); [by left|].
      destruct (decide (calls does = [])) as [Hcalls|Hcalls].
      { left. by rewrite Htable, handleRequest_nil. }
      right. exists does, h, t. split_and!; [|done..].
      destruct Hreached as [[Ht Hh]|(-> & Hh & ->)]; [right|by left].
      split_and!; [|done..]. destruct isInitialize; auto.
    + destruct (route_table does h true transports)
        as (_ & [Hsame|(t & [Ht Hh] & Htable)] & _); [by left|].
      destruct (decide (calls does = [])) as [Hcalls|Hcalls].
      { left. by rewrite Htable, handleRequest_nil. }
      right. exists does, h, t. split_and!; [|done..]. right. auto.
    + destruct (route_table does h true transports)
        as (_ & _ & [Hsame|(t & [Ht Hh] & Htable)]); [by left|].
      destruct (decide (calls does = [])) as [Hcalls|Hcalls].
      { left. by rewrite Htable, handleRequest_nil. }
      right. exists does, h, t. split_and!; [|done..]. right. auto.
  - intros does h Hh. simpl. unfold post_mcp, get_mcp, delete_mcp. cbv zeta.
    by rewrite Hh.
  - intros does sid Hne Hsid Hproto. simpl.
    by destruct (absent_session_rejected does transports sid true).
Qed.

(** [stop] never adds a session. *)
Lemma stop_visit_lookup transports sid k :
  stop_visit transports sid !! k = None
  ∨ (k ≠ sid ∧ stop_visit transports sid !! k = transports !! k)
  ∨ (stop_visit transports sid !! k = transports !! k
     ∧ transports !! sid = None).
Proof.
  unfold stop_visit. destruct (transports !! sid) as [t|] eqn:Hsid.
  - destruct (decide (k = sid)) as [->|Hk]; [left; apply lookup_delete_eq|].
    rewrite lookup_delete_ne by done.
    destruct (onclose t transports !! k) as [t'|] eqn:Hk'; [|by left].
    right. left. split; [done|]. symmetry.
    by apply (lookup_weaken _ _ _ _ Hk'), onclose_subseteq.
  - right. right. done.
Qed.

Lemma stop_lookup order : ∀ transports k,
  k ∈ order ∨ transports !! k = None → stop order transports !! k = None.
Proof.
  induction order as [|sid order IH]; intros transports k H.
  - destruct H as [H|H]; [by apply elem_of_nil in H | done].
  - change (stop (sid :: order) transports)
      with (stop order (stop_visit transports sid)).
    apply IH.
    destruct (stop_visit_lookup transports sid k) as [Hk|[[Hne Hk]|[Hk Hsid]]].
    + by right.
    + destruct H as [[->|H]%elem_of_cons|H]; [done|by left|].
      right. by rewrite Hk.
    + destruct H as [[->|H]%elem_of_cons|H].
      * right. by rewrite Hk.
      * by left.
      * right. by rewrite Hk.
Qed.

(** X17.  [stop] leaves the Session Table empty: every session that the
    loop visits is closed and deleted, and the loop visits every key that
    is still in the table when its turn comes. *)
Theorem stop_empties order transports :
  (∀ k, is_Some (transports !! k) → k ∈ order) →
  stop order transports = ∅.
Proof.
  intros Hall. apply map_eq. intros k. rewrite lookup_empty.
  apply stop_lookup.
  destruct (transports !! k) as [t|] eqn:Hk; [left|by right].
  apply Hall. by eexists.
Qed.

Lemma stop_empties_witness :
  stop [uuid1; uuid2] two_sessions = ∅.
Proof.
  apply stop_empties. intros k [t Hk].
  unfold two_sessions, serve_all in Hk. simpl in Hk.
  unfold post_mcp, handleRequest in Hk. simpl in Hk.
  apply lookup_insert_Some in Hk as [[<- _]|[_ Hk]].
  - apply list_elem_of_further, list_elem_of_here.
  - apply lookup_insert_Some in Hk as [[<- _]|[_ Hk]].
    + apply list_elem_of_here.
    + by rewrite lookup_empty in Hk.
Defined.

End Sessions.

(** ** More on the Bridge *)

Section BridgeMore.
Context {W : Type}.
Implicit Types (t : Tui.TuiIntegration W) (w : W) (c : Tui.Call W).

Lemma Bridge_ok_cleanUp questionId t :
  Bridge_ok t → Bridge_ok (Tui.cleanUp questionId t).
Proof.
  intros [Hnd Hmarker]. split; simpl.
  - by apply MapMore.NoDup_keys_delete.
  - intros q. case_decide as Hcur; [done|]. intros Hq.
    rewrite MapMore.get_delete_ne; [by apply Hmarker|].
    intros ->. by apply Hcur.
Qed.

Lemma Bridge_ok_submitQuestion text questionId t w :
  Bridge_ok t → Bridge_ok (Tui.submitQuestion text questionId t w).1.
Proof.
  intros [Hnd Hmarker]. unfold Tui.submitQuestion.
  destruct (Map.get _ _) as [current|]; [|done].
  destruct (Tui.buffer_setText _ _ _); [|done].
  assert (Bridge_ok
            {| Tui.callbacks := Tui.callbacks t;
               Tui.pendingQuestions :=
                 Map.set questionId current (Tui.pendingQuestions t);
               Tui.currentQuestionId := Some questionId |}) as Hok.
  { split; simpl; [by apply MapFacts.NoDup_keys_set|].
    intros q [= <-]. rewrite MapFacts.get_set_eq. by eexists. }
  by destruct (Tui.onSubmit _ _ _).
Qed.

Lemma Bridge_ok_perform c t w :
  Bridge_ok t → Bridge_ok (Tui.perform c (t, w)).1.
Proof.
  intros Hok. destruct c as [cb|p|text q|q r|q e]; simpl.
  - done.
  - destruct Hok as [Hnd Hmarker]. split; simpl.
    + by apply MapFacts.NoDup_keys_set.
    + intros q Hq. rewrite MapFacts.get_set. case_decide; [by eexists|].
      by apply Hmarker.
  - by apply Bridge_ok_submitQuestion.
  - by apply Bridge_ok_cleanUp.
  - by apply Bridge_ok_cleanUp.
Qed.

Lemma Bridge_ok_perform_all cs : ∀ t w,
  Bridge_ok t → Bridge_ok (Tui.perform_all cs (t, w)).1.
Proof.
  induction cs as [|c cs IH]; intros t w Hok; [done|].
  change (Tui.perform_all (c :: cs) (t, w))
    with (Tui.perform_all cs (Tui.perform c (t, w))).
  destruct (Tui.perform c (t, w)) as [t' w'] eqn:Hc.
  apply IH. change t' with (t', w').1. rewrite <- Hc.
  by apply Bridge_ok_perform.
Qed.

(** X18.  After every sequence of calls on a new Bridge, the marker, when
    it is set, names a question whose prompt [pendingQuestions] still
    holds. *)
Theorem marker_names_pending cs w0 :
  let t := (Tui.perform_all cs (Tui.new_TuiIntegration, w0)).1 in
  ∀ q, Tui.getCurrentQuestionId t = Some q →
       is_Some (Map.get q (Tui.pendingQuestions t)).
Proof.
  intros t. apply (Bridge_ok_perform_all cs Tui.new_TuiIntegration w0).
  split; [apply NoDup_nil_2 | done].
Qed.

(** X19.  Routing a question and being notified of its end is a round
    trip on the Bridge: when a prompt is registered, the question is not
    pending yet, and the prompt takes the text, [submitQuestion] followed
    by either notification for the same id leaves [pendingQuestions] as it
    was before the two and the marker null; the prompt saw the text set
    and then submitted, and no callback ran before the notification. *)
Theorem route_then_notify t w text questionId arg current w1 w2 :
  Map.get (js "current") (Tui.pendingQuestions t) = Some current →
  Map.get questionId (Tui.pendingQuestions t) = None →
  Tui.buffer_setText current text w = Tui.Returns w1 →
  Tui.onSubmit current text w1 = Tui.Returns w2 →
  let routed := Tui.submitQuestion text questionId t w in
  routed.2 = w2
  ∧ Tui.currentQuestionId routed.1 = Some questionId
  ∧ Map.get questionId (Tui.pendingQuestions routed.1) = Some current
  ∧ Tui.pendingQuestions
      (Tui.notifyResponseComplete questionId arg routed.1 routed.2).1
    = Tui.pendingQuestions t
  ∧ Tui.pendingQuestions (Tui.notifyError questionId arg routed.1 routed.2).1
    = Tui.pendingQuestions t
  ∧ Tui.currentQuestionId
      (Tui.notifyResponseComplete questionId arg routed.1 routed.2).1 = None
  ∧ Tui.currentQuestionId
      (Tui.notifyError questionId arg routed.1 routed.2).1 = None.
Proof.
  intros Hcur Hfresh Hset Hsubmit routed.
  assert (routed
          = ({| Tui.callbacks := Tui.callbacks t;
                Tui.pendingQuestions :=
                  Map.set questionId current (Tui.pendingQuestions t);
                Tui.currentQuestionId := Some questionId |}, w2)) as ->.
  { subst routed. unfold Tui.submitQuestion.
    by rewrite Hcur, Hset, Hsubmit. }
  simpl. rewrite MapFacts.get_set_eq, MapMore.delete_set_fresh by done.
  by rewrite decide_True.
Qed.

(** X20.  The registered prompt lives in [pendingQuestions] under the key
    "current", beside the routed questions.  A call changes that entry
    only if it is [registerInputPrompt] or a notification whose question
    id is "current"; and after such a notification, on a Bridge reached
    by calls on a new one, no prompt is registered: [submitQuestion]
    routes nothing, leaves the Bridge as it is and reports "TUI not
    available" through [onError]. *)
Theorem current_entry c cs t w w0 text questionId arg :
  (Map.get (js "current") (Tui.pendingQuestions (Tui.perform c (t, w)).1)
   = Map.get (js "current") (Tui.pendingQuestions t)
   ∨ (∃ p, c = Tui.call_registerInputPrompt p)
   ∨ (∃ a, c = Tui.call_notifyResponseComplete (js "current") a)
   ∨ (∃ a, c = Tui.call_notifyError (js "current") a))
  ∧ let s := Tui.perform_all cs (Tui.new_TuiIntegration, w0) in
    (let s1 := Tui.notifyResponseComplete (js "current") arg s.1 s.2 in
     Tui.submitQuestion text questionId s1.1 s1.2
     = (s1.1, Tui.call (Tui.onError (Tui.callbacks s.1)) questionId
                       (js "TUI not available") s1.2))
    ∧ (let s1 := Tui.notifyError (js "current") arg s.1 s.2 in
       Tui.submitQuestion text questionId s1.1 s1.2
       = (s1.1, Tui.call (Tui.onError (Tui.callbacks s.1)) questionId
                         (js "TUI not available") s1.2)).
Proof.
  split.
  - destruct c as [cb|p|text' q|q r|q e]; simpl.
    + by left.
    + right. left. by eexists.
    + left. unfold Tui.submitQuestion.
      destruct (Map.get (js "current") (Tui.pendingQuestions t))
        as [current|] eqn:Hcur; [|done].
      destruct (Tui.buffer_setText _ _ _); [|done].
      assert (Map.get (js "current")
                (Map.set q current (Tui.pendingQuestions t)) = Some current).
      { rewrite MapFacts.get_set. by case_decide. }
      by destruct (Tui.onSubmit _ _ _).
    + destruct (decide (q = js "current")) as [->|Hq].
      * right. right. left. by eexists.
      * left. by apply MapMore.get_delete_ne.
    + destruct (decide (q = js "current")) as [->|Hq].
      * right. right. right. by eexists.
      * left. by apply MapMore.get_delete_ne.
  - intros s.
    assert (Bridge_ok s.1) as [Hnd _].
    { apply (Bridge_ok_perform_all cs Tui.new_TuiIntegration w0).
      split; [apply NoDup_nil_2 | done]. }
    unfold Tui.notifyResponseComplete, Tui.notifyError, Tui.submitQuestion.
    simpl. by rewrite MapMore.get_delete_eq.
Qed.

End BridgeMore.

(** A question routed through a prompt that logs what it is given, and
    then answered. *)
Lemma route_then_notify_witness :
  let t := Tui.registerInputPrompt logging_prompt Tui.new_TuiIntegration in
  let routed := Tui.submitQuestion (js "What is 2+2?") q1 t [] in
  routed.2 = [js "What is 2+2?"]
  ∧ Tui.currentQuestionId routed.1 = Some q1
  ∧ Tui.pendingQuestions
      (Tui.notifyResponseComplete q1 (js "4") routed.1 routed.2).1
    = Tui.pendingQuestions t
  ∧ Tui.currentQuestionId
      (Tui.notifyResponseComplete q1 (js "4") routed.1 routed.2).1 = None.
Proof.
  destruct (route_then_notify
              (Tui.registerInputPrompt logging_prompt Tui.new_TuiIntegration)
              [] (js "What is 2+2?") q1 (js "4") logging_prompt
              [] [js "What is 2+2?"])
    as (H1 & H2 & _ & H3 & _ & H4 & _);
    [vm_compute; reflexivity | vm_compute; reflexivity
    | reflexivity | reflexivity |].
  split_and!; [exact H1 | exact H2 | exact H3 | exact H4].
Defined.

(** ** An answer that arrives while [ask] sleeps *)

Section Latency.
Import Mcp.

Lemma ledger_at_S sched k qm :
  ledger_at sched (S k) qm = run (sched k) (ledger_at sched k qm).
Proof.
  unfold ledger_at. rewrite !ledger_from_run, seq_S, fmap_app, concat_app.
  rewrite run_app. simpl. by rewrite app_nil_r.
Qed.

(** X21.  On a Ledger reached by operations on a new one, after a handler
    that returned: when the first [k + 1] calls of [getAnswer] find the
    question not terminal and the [k]-th sleep ends with the resolve of
    the question, the next call finds it, and [ask] returns the payload
    for the answered question after [k + 1] sleeps, reporting
    [2 * (k + 1)] seconds. *)
Theorem resolve_seen_by_next_poll ops handler env text stream sched k r before :
  let qm := run ops new_QuestionManager in
  let questionId := generateQuestionId env in
  let qm2 := run (effects (handler text questionId))
                 (submitQuestion env text qm).2 in
  raised (handler text questionId) = None →
  S k < maxRetries →
  (∀ j q, j ≤ k → readAnswer questionId (ledger_at sched j qm2) = Some q →
          status q = st_thinking) →
  sched k = before ++ [op_resolve questionId r] →
  ∃ q, ask (Some handler) env text stream sched qm
       = (Content (success_text stream questionId q (S k)), S k,
          ledger_at sched (S k) qm2)
       ∧ status q = st_finished ∧ response q = Some r
       ∧ NumStr (2 * S k) ∈ success_text stream questionId q (S k).
Proof.
  intros qm questionId qm2 Hraised Hk Hwait Hsched.
  set (ledger := run before (ledger_at sched k qm2)).
  assert (is_Some (readAnswer questionId ledger)) as [q0 Hq0].
  { assert (ledger
            = run (ops ++ op_submit env text
                     :: effects (handler text questionId)
                        ++ concat (sched <$> seq 0 k) ++ before)
                  new_QuestionManager) as ->.
    { subst ledger qm2. unfold ledger_at.
      rewrite ledger_from_run, <- run_app. symmetry.
      rewrite (run_app ops). fold qm.
      exact (run_app (effects (handler text questionId)) _
                     (submitQuestion env text qm).2). }
    apply readAnswer_is_Some_issued. unfold issued.
    rewrite omap_app, elem_of_app. right. apply list_elem_of_here. }
  assert (readAnswer questionId (ledger_at sched (S k) qm2)
          = Some (set_response r (set_status st_finished q0))) as Hseen.
  { rewrite ledger_at_S, Hsched, run_app. fold ledger. simpl.
    by rewrite readAnswer_notifyResponseComplete, Hq0. }
  exists (set_response r (set_status st_finished q0)).
  split_and!; [|done|done|].
  { rewrite ask_with_handler. cbv zeta.
    change (submitQuestion env text qm).1 with questionId.
    rewrite Hraised. fold qm2.
    rewrite (poll_waiting stream questionId sched (S k)); [|lia|].
    - apply poll_exits; [lia|]. simpl.
      change (ledger_from sched 0 (S k) qm2)
        with (ledger_at sched (S k) qm2).
      rewrite Hseen. by apply poll_exit_finished.
    - intros j Hj q. apply Hwait. lia. }
  apply success_text_contents. replace (2 * S k) with (S k * 2) by lia.
  do 4 apply list_elem_of_further. apply list_elem_of_here.
Qed.

End Latency.

(** The answer of the example arrives during the third sleep. *)
Lemma resolve_seen_by_next_poll_witness :
  ∃ q, Mcp.ask (Some forwards) env1 (js "What is 2+2?") true
               (answers_at 2 q1 (js "4")) new_QuestionManager
       = (Mcp.Content (Mcp.success_text true q1 q 3), 3,
          ledger_at (answers_at 2 q1 (js "4")) 3 ledger1)
       ∧ status q = st_finished ∧ response q = Some (js "4")
       ∧ Mcp.NumStr 6 ∈ Mcp.success_text true q1 q 3.
Proof.
  apply (resolve_seen_by_next_poll [] forwards env1 (js "What is 2+2?") true
           (answers_at 2 q1 (js "4")) 2 (js "4") []).
  - reflexivity.
  - unfold Mcp.maxRetries. lia.
  - intros j q Hj. destruct j as [|[|[|j]]]; [| | |lia];
      vm_compute; by intros [= <-].
  - reflexivity.
Defined.

(** ** Front End A, end to end *)

(** X22.  A question posted through [POST /question] with no handler set,
    then resolved or failed under the id the route replied with, reads
    through [GET /answer] as [finished] with the response, or as [error]
    with the error, and with the trimmed text as its request. *)
Theorem post_notify_get env s qm r e :
  trim s ≠ [] →
  let posted := Http.post_question None env (Http.JString s) qm in
  let questionId := generateQuestionId env in
  posted.1 = Http.reply_questionId questionId
  ∧ Http.get_answer questionId
      (notifyResponseComplete questionId r posted.2)
    = Http.reply_answer
        {| id := questionId; status := st_finished; request := trim s;
           response := Some r; error := None; createdAt := new_Date env |}
  ∧ Http.get_answer questionId (notifyError questionId e posted.2)
    = Http.reply_answer
        {| id := questionId; status := st_error; request := trim s;
           response := None; error := Some e; createdAt := new_Date env |}.
Proof.
  intros Htrim posted questionId.
  assert (posted = (Http.reply_questionId questionId,
                    (submitQuestion env (trim s) qm).2)) as ->.
  { subst posted. by rewrite post_question_accepts by done. }
  pose proof (readAnswer_submitQuestion env (trim s) qm) as Hread.
  assert (questionId ≠ []) as Hne by done.
  change (submitQuestion env (trim s) qm).1 with questionId in Hread.
  split; [done|]. cbn [snd]. unfold Http.get_answer.
  rewrite !decide_False by done.
  by rewrite readAnswer_notifyResponseComplete, readAnswer_notifyError, Hread.
Qed.

Lemma post_notify_get_witness :
  let posted := Http.post_question None env1
                  (Http.JString (js " What is 2+2? ")) new_QuestionManager in
  posted.1 = Http.reply_questionId q1
  ∧ Http.get_answer q1 (notifyResponseComplete q1 (js "4") posted.2)
    = Http.reply_answer
        {| id := q1; status := st_finished; request := js "What is 2+2?";
           response := Some (js "4"); error := None;
           createdAt := 1718000000000%N |}.
Proof.
  assert (trim (js " What is 2+2? ") ≠ []) as H by (vm_compute; discriminate).
  destruct (post_notify_get env1 (js " What is 2+2? ") new_QuestionManager
              (js "4") (js "late") H) as (Hid & Hget & _).
  split; [exact Hid | exact Hget].
Defined.

(** A question routed through a registered prompt is the one the marker
    names, and its entry is there. *)
Lemma marker_names_pending_witness :
  let cs := [ Tui.call_registerInputPrompt logging_prompt;
              Tui.call_submitQuestion (js "What is 2+2?") q1 ] in
  let t := (Tui.perform_all cs (Tui.new_TuiIntegration, [])).1 in
  Tui.getCurrentQuestionId t = Some q1
  ∧ is_Some (Map.get q1 (Tui.pendingQuestions t)).
Proof.
  intros cs t.
  assert (Tui.getCurrentQuestionId t = Some q1) as H
    by (vm_compute; reflexivity).
  split; [exact H|]. exact (marker_names_pending cs [] q1 H).
Defined.
